(** * Semiprime test-number generator: a shallow embedding of
      [generate_test_numbers.py] and the properties of its numeric core.

    Python integers are unbounded, so they are modelled as [Z]: [//] is
    [Z.div] and [%] is [Z.modulo] (both round towards minus infinity, the
    sign of the remainder follows the divisor, exactly as in Python).  Loops
    whose exit the source does not bound are run with fuel; a call is said
    to return [v] when some amount of fuel yields [Ret v].

    The one floating-point operation of the program, [int(n ** 0.5)], is a
    parameter of the model: the program is embedded over any function that
    meets what is known of the double-precision power ([root_spec]), so a
    theorem holds of the code whatever the power rounds to where its value
    is not known exactly. *)

From Stdlib Require Import ZArith List String Ascii DecimalString.
From Stdlib Require Import Lia Bool Sorted.
Import ListNotations.
Local Open Scope Z_scope.

(* ================================================================= *)
(** * Part I: the program *)
(* ================================================================= *)

(** ** Outcomes of a call *)

(** The exceptions the modelled statements can raise. *)
Inductive exn : Type :=
| ZeroDivisionError
| TypeError
| OverflowError
| KeyError.

(** A call returns a value, raises, or is still running when the fuel is
    spent. *)
Inductive res (A : Type) : Type :=
| Ret (a : A)
| Raise (e : exn)
| Timeout.

Arguments Ret {A} a.
Arguments Raise {A} e.
Arguments Timeout {A}.

Definition bind {A B : Type} (c : res A) (k : A -> res B) : res B :=
  match c with
  | Ret a => k a
  | Raise e => Raise e
  | Timeout => Timeout
  end.

Notation "x <- c ;; k" := (bind c (fun x => k))
  (at level 61, c at next level, right associativity).

(** [while cond: body], run for at most [fuel] evaluations of the
    condition.  Evaluating the condition can itself raise. *)
Fixpoint while {St : Type} (fuel : nat) (cond : St -> res bool)
    (body : St -> res St) (s : St) : res St :=
  match fuel with
  | O => Timeout
  | S fuel' =>
      b <- cond s ;;
      if b then s' <- body s ;; while fuel' cond body s' else Ret s
  end.

(** A loop condition that only computes. *)
Definition test {St : Type} (c : St -> bool) : St -> res bool :=
  fun s => Ret (c s).

(** The run of a loop as a relation: [loop_run cond body s tr r] says that,
    started in [s], the body is executed once in each state of [tr] (in
    that order) and the loop is left in state [r]. *)
Inductive loop_run {St : Type} (cond : St -> res bool) (body : St -> res St)
  : St -> list St -> St -> Prop :=
| loop_exit : forall s, cond s = Ret false -> loop_run cond body s [] s
| loop_iter : forall s s' tr r,
    cond s = Ret true -> body s = Ret s' -> loop_run cond body s' tr r ->
    loop_run cond body s (s :: tr) r.

(** A call [f] (a function of the fuel) returns [v]. *)
Definition returns {A : Type} (f : nat -> res A) (v : A) : Prop :=
  exists fuel, f fuel = Ret v.

(** ** Built-ins *)

(** [range(start, stop, step)] for a positive step. *)
Fixpoint range_from (start step : Z) (len : nat) : list Z :=
  match len with
  | O => []
  | S len' => start :: range_from (start + step) step len'
  end.

Definition range (start stop step : Z) : list Z :=
  range_from start step (Z.to_nat ((stop - start + step - 1) / step)).

(** [str(n)] for an integer: decimal digits, with a leading minus sign for
    negative numbers. *)
Definition str (n : Z) : string := NilZero.string_of_int (Z.to_int n).

(** [len(str(n))] *)
Definition len_str (n : Z) : Z := Z.of_nat (String.length (str n)).

(** [len(l)] for a list. *)
Definition len {A : Type} (l : list A) : Z := Z.of_nat (List.length l).

(** [a // b] *)
Definition floordiv (a b : Z) : res Z :=
  if b =? 0 then Raise ZeroDivisionError else Ret (a / b).

(** The least integer that does not convert to a double: halfway between
    the greatest double, [2 ** 1024 - 2 ** 971], and [2 ** 1024]. *)
Definition float_limit : Z := 2 ^ 1024 - 2 ^ 970.

(** What is known of [int(n ** 0.5)] on an integer [n], whatever the
    platform's double-precision power rounds to:
    - the operation ends;
    - from [float_limit] on, and from [- float_limit] down, [n] does not
      convert to a double and the power raises [OverflowError];
    - for a negative [n] that converts, the power is a complex number and
      [int] raises [TypeError];
    - for [0 <= n < 2 ** 52] the power is within one unit in the last place
      of the square root, which truncates to the integer square root.
    Between [2 ** 52] and [float_limit] the result depends on the rounding
    (it can differ from the integer square root) and nothing is assumed. *)
Definition root_spec (root : Z -> res Z) : Prop :=
  (forall n, root n <> Timeout) /\
  (forall n, float_limit <= n -> root n = Raise OverflowError) /\
  (forall n, n <= - float_limit -> root n = Raise OverflowError) /\
  (forall n, - float_limit < n < 0 -> root n = Raise TypeError) /\
  (forall n, 0 <= n < 2 ^ 52 -> root n = Ret (Z.sqrt n)).

(** The most cautious function that meets [root_spec]: it answers only
    where the answer is known.  The runs of the program that this file
    evaluates are runs over it, and a run over it that returns is a run of
    every function that meets [root_spec]. *)
Definition cautious_root (n : Z) : res Z :=
  if n <? 0 then
    if - float_limit <? n then Raise TypeError else Raise OverflowError
  else if n <? 2 ^ 52 then Ret (Z.sqrt n)
  else Raise OverflowError.

(** The double nearest to an integer [n >= 0] (ties to even), as an
    integer: what the conversion of [n] to a float gives. *)
Definition to_double (n : Z) : Z :=
  let e := Z.log2 n in
  if e <? 53 then n
  else
    let s := e - 52 in
    let q := Z.shiftr n s in
    let r := n - Z.shiftl q s in
    let half := 2 ^ (s - 1) in
    let q' := if (half <? r) || ((r =? half) && Z.odd q) then q + 1 else q in
    Z.shiftl q' s.

(** The double nearest to the square root of a double [x >= 1], truncated
    to an integer.  The root lies in [[2 ** j, 2 ** (j + 1))] for
    [j = log2 x // 2], where doubles are [2 ** (j - 52)] apart. *)
Definition double_sqrt_int (x : Z) : Z :=
  let j := Z.log2 x / 2 in
  let k := 52 - j in
  if 0 <=? k
  then Z.shiftr ((Z.sqrt (x * 4 ^ k * 4) + 1) / 2) k
  else Z.shiftl ((Z.sqrt (x / 4 ^ (- k - 1)) + 1) / 2) (- k).

(** The function that meets [root_spec] and, between [2 ** 52] and
    [float_limit], rounds both the conversion and the root to the nearest
    double.  It shows what rounding does to the callers: at
    [4503601640636640], which is [67108879 ** 2 - 1], it gives 67108879,
    one more than the integer square root. *)
Definition nearest_root (n : Z) : res Z :=
  if n <? 0 then
    if - float_limit <? n then Raise TypeError else Raise OverflowError
  else if n <? 2 ^ 52 then Ret (Z.sqrt n)
  else if float_limit <=? n then Raise OverflowError
  else Ret (double_sqrt_int (to_double n)).

(** ** Primality oracle *)

(** The [for i in range(...)] loop of [is_prime], with its early return. *)
Fixpoint no_divisor_in (n : Z) (l : list Z) : bool :=
  match l with
  | [] => true
  | i :: rest => if n mod i =? 0 then false else no_divisor_in n rest
  end.


(** ** Directional prime search *)

(** Both searches call the global [is_prime]; the loops are written here
    over the test they call, and instantiated with [is_prime] below.  The
    test can raise.  In [prev_prime] the test is not called once the
    candidate is at most 2 ([and] evaluates its right operand only when
    the left one is true). *)
Section Search.

Variable oracle : Z -> res bool.

Definition next_prime_with (fuel : nat) (n : Z) : res Z :=
  let candidate := if n mod 2 =? 0 then n + 1 else n + 2 in
  while fuel
    (fun candidate => b <- oracle candidate ;; Ret (negb b))
    (fun candidate => Ret (candidate + 2))
    candidate.

Definition prev_prime_with (fuel : nat) (n : Z) : res Z :=
  let candidate := if n mod 2 =? 0 then n - 1 else n - 2 in
  while fuel
    (fun candidate =>
       if candidate >? 2 then b <- oracle candidate ;; Ret (negb b)
       else Ret false)
    (fun candidate => Ret (candidate - 2))
    candidate.

End Search.

(** A semiprime result [(p, q, product)]. *)
Definition triple : Type := (Z * Z * Z)%type.

(** The local variables the two adjustment loops of [generate_semiprime]
    can see. *)
Record gs_locals : Type := mk_gs { gs_p : Z; gs_q : Z; gs_product : Z }.

Definition shrink_cond (target_digits : Z) (st : gs_locals) : bool :=
  len_str (gs_product st) >? target_digits.

Definition grow_cond (target_digits : Z) (st : gs_locals) : bool :=
  len_str (gs_product st) <? target_digits.

(** State of the inner loop of [find_semiprimes_in_range]: [q],
    [product], [results], and whether [break] was executed. *)
Record inner_state : Type :=
  mk_inner { in_q : Z; in_product : Z; in_results : list triple;
             in_break : bool }.

Definition inner_cond (max_val : Z) (st : inner_state) : bool :=
  negb (in_break st) && (in_product st <=? max_val).

(** State of the outer loop: [p] and [results]. *)
Definition outer_state : Type := (Z * list triple)%type.

Definition outer_cond (max_val count : Z) (st : outer_state) : bool :=
  (len (snd st) <? count) && (fst st * fst st <? max_val).

Section Program.

(** [int(n ** 0.5)] *)
Variable float_root : Z -> res Z.

(** [generate_semiprime] on a negative [target_digits] that converts to
    a double.  There [10 ** target_digits] is a float and every local of
    the function is a float, which this model of integers does not
    follow.  Such a call cannot return: the condition of the shrink loop,
    [len(str(product)) > target_digits], holds of every value, a length
    being at least 1.  Whether it raises or keeps running is left open,
    so the parameter has no value to return. *)
Variable float_run : nat -> Z -> res Empty_set.

Definition is_prime (n : Z) : res bool :=
  if n <? 2 then Ret false
  else if n =? 2 then Ret true
  else if n mod 2 =? 0 then Ret false
  else r <- float_root n ;; Ret (no_divisor_in n (range 3 (r + 1) 2)).

Definition next_prime : nat -> Z -> res Z := next_prime_with is_prime.
Definition prev_prime : nat -> Z -> res Z := prev_prime_with is_prime.

(** ** Target-digit constructor *)

Definition shrink_body (fuel : nat) (st : gs_locals) : res gs_locals :=
  q <- prev_prime fuel (gs_q st) ;;
  Ret (mk_gs (gs_p st) q (gs_p st * q)).

Definition grow_body (fuel : nat) (st : gs_locals) : res gs_locals :=
  q <- next_prime fuel (gs_q st) ;;
  Ret (mk_gs (gs_p st) q (gs_p st * q)).

(** A negative exponent makes [10 ** target_digits] a float power, which
    converts the exponent to a double first: from [- float_limit] down
    that raises [OverflowError]. *)
Definition generate_semiprime (fuel : nat) (target_digits : Z) : res triple :=
  if target_digits <? 0 then
    if target_digits <=? - float_limit then Raise OverflowError
    else v <- float_run fuel target_digits ;; match v with end
  else
    let target := 10 ^ target_digits in
    let half_digits := target_digits / 2 in
    p <- next_prime fuel (10 ^ half_digits) ;;
    q_target <- floordiv target p ;;
    q <- next_prime fuel q_target ;;
    let product := p * q in
    st <- while fuel (test (shrink_cond target_digits)) (shrink_body fuel)
            (mk_gs p q product) ;;
    st <- while fuel (test (grow_cond target_digits)) (grow_body fuel) st ;;
    Ret (gs_p st, gs_q st, gs_product st).

(** ** Range enumerator *)

Definition inner_body (fuel : nat) (min_val max_val count p : Z)
    (st : inner_state) : res inner_state :=
  let q := in_q st in
  let product := in_product st in
  if (min_val <=? product) && (product <=? max_val)
     && (len_str product =? len_str min_val)
  then
    let results := in_results st ++ [(p, q, product)] in
    if len results >=? count
    then Ret (mk_inner q product results true)
    else q' <- next_prime fuel q ;; Ret (mk_inner q' (p * q') results false)
  else
    q' <- next_prime fuel q ;;
    Ret (mk_inner q' (p * q') (in_results st) false).

Definition outer_body (fuel : nat) (min_val max_val count : Z)
    (st : outer_state) : res outer_state :=
  let p := fst st in
  d <- floordiv min_val p ;;
  q <- next_prime fuel d ;;
  let product := p * q in
  inner <- while fuel (test (inner_cond max_val))
             (inner_body fuel min_val max_val count p)
             (mk_inner q product (snd st) false) ;;
  p' <- next_prime fuel p ;;
  Ret (p', in_results inner).

Definition find_semiprimes_in_range (fuel : nat) (min_val max_val count : Z)
  : res (list triple) :=
  r <- float_root min_val ;;
  p <- next_prime fuel r ;;
  st <- while fuel (test (outer_cond max_val count))
          (outer_body fuel min_val max_val count) (p, []) ;;
  Ret (snd st).

End Program.

(** A run on a negative digit count that never ends: the instance used
    where a run is evaluated (no run this file evaluates is on a negative
    digit count). *)
Definition no_float_run (fuel : nat) (d : Z) : res Empty_set := Timeout.

(** ** The report *)

Local Infix "^^" := String.append (at level 60, right associativity).

(** [print(line)]: standard output is the list of the lines written so
    far. *)
Definition print (line : string) (stdout : list string) : list string :=
  stdout ++ [line].


(** The multiplication sign of the report lines, U+00D7, in UTF-8. *)
Definition times_sign : string :=
  String (ascii_of_nat 195) (String (ascii_of_nat 151) EmptyString).







(** The body of the loop over the entries of one digit group. *)
Definition report_entry (digits : Z) (out : list string) (e : triple)
  : list string :=
  let '(p, q, n) := e in
  if negb (p * q =? n) then
    print ("  ERROR: " ^^ str p ^^ " " ^^ times_sign ^^ " " ^^ str q ^^ " = "
           ^^ str (p * q) ^^ ", not " ^^ str n) out
  else if negb (len_str n =? digits) then
    print ("  ERROR: " ^^ str n ^^ " has " ^^ str (len_str n)
           ^^ " digits, not " ^^ str digits) out
  else if digits =? 8 then
    print ("  " ^^ str n ^^ " = " ^^ str p ^^ " " ^^ times_sign ^^ " " ^^ str q
           ^^ " (BASELINE)") out
  else
    print ("  " ^^ str n ^^ " = " ^^ str p ^^ " " ^^ times_sign ^^ " " ^^ str q)
          out.






(** An error line starts with the error mark. *)
Definition is_error_line (line : string) : bool :=
  String.prefix "  ERROR: " line.

(** The line the loop body writes for an entry. *)
Definition entry_line (digits : Z) (e : triple) : string :=
  last (report_entry digits [] e) EmptyString.


(** ** Auxiliary definitions of the proofs *)

(** [is_prime] with the exact integer square root in place of the float
    one: what [is_prime] computes below [2 ** 52]. *)
Definition exact_test (n : Z) : bool :=
  if n <? 2 then false
  else if n =? 2 then true
  else if n mod 2 =? 0 then false
  else no_divisor_in n (range 3 (Z.sqrt n + 1) 2).

(** What the specification asks of [generate_semiprime d], checked on the
    run with fuel 200. *)
Definition check_semiprime (d : Z) : bool :=
  match generate_semiprime cautious_root no_float_run 200 d with
  | Ret (p, q, n) =>
      match is_prime cautious_root p, is_prime cautious_root q with
      | Ret true, Ret true => (p * q =? n) && (len_str n =? d)
      | _, _ => false
      end
  | _ => false
  end.

(** The test of the inner loop of [find_semiprimes_in_range] that decides
    whether [(p, q, product)] is appended. *)
Definition accepts (min_val max_val product : Z) : bool :=
  (min_val <=? product) && (product <=? max_val)
  && (len_str product =? len_str min_val).

(** What the specification asks of a triple of the range enumerator. *)
Definition in_range_triple (min_val max_val : Z) (t : triple) : Prop :=
  let '(p, q, product) := t in
  p * q = product /\ min_val <= product <= max_val /\
  len_str product = len_str min_val.

(** The order in which the range enumerator appends: by [p], and for the
    same [p] by [q]. *)
Definition appended_before (t1 t2 : triple) : Prop :=
  let '(p1, q1, _) := t1 in
  let '(p2, q2, _) := t2 in
  p1 < p2 \/ (p1 = p2 /\ q1 < q2).

(* ================================================================= *)
(** * Part II: properties *)
(* ================================================================= *)

(** Concrete runs, over [cautious_root]. *)
Example is_prime_47893197 : is_prime cautious_root 47893197 = Ret false.
Proof. vm_compute. reflexivity. Qed.

Example next_prime_10 : next_prime cautious_root 5 10 = Ret 11.
Proof. vm_compute. reflexivity. Qed.

Example generate_semiprime_2 :
  generate_semiprime cautious_root no_float_run 10 2 = Ret (11, 7, 77).
Proof. vm_compute. reflexivity. Qed.

Example generate_semiprime_8 :
  generate_semiprime cautious_root no_float_run 100 8
  = Ret (10007, 9973, 99799811).
Proof. vm_compute. reflexivity. Qed.

(** ** Outcomes *)

Lemma bind_ret {A B : Type} (c : res A) (k : A -> res B) (b : B) :
  bind c k = Ret b -> exists a, c = Ret a /\ k a = Ret b.
Proof. destruct c; simpl; intros H; try discriminate. eauto. Qed.

(** A call whose result does not change with more fuel returns at most one
    value. *)
Lemma returns_functional {A : Type} (f : nat -> res A) (v v' : A) :
  (forall fuel fuel' a, (fuel <= fuel')%nat -> f fuel = Ret a -> f fuel' = Ret a) ->
  returns f v -> returns f v' -> v = v'.
Proof.
  intros Hmono [k Hk] [k' Hk'].
  apply (Hmono k (Nat.max k k')) in Hk; [|lia].
  apply (Hmono k' (Nat.max k k')) in Hk'; [|lia].
  congruence.
Qed.

(** ** Loops *)

Section WhileFacts.

Context {St : Type}.
Variables (cond : St -> res bool) (body : St -> res St).

(** A loop invariant holds on exit, where the condition is false. *)
Lemma while_inv (I : St -> Prop) :
  (forall s s', I s -> cond s = Ret true -> body s = Ret s' -> I s') ->
  forall fuel s r,
    I s -> while fuel cond body s = Ret r -> I r /\ cond r = Ret false.
Proof.
  intros Hstep fuel.
  induction fuel as [|fuel IH]; intros s r Hs Hrun; simpl in Hrun.
  - discriminate.
  - destruct (cond s) as [[|]| |] eqn:Hc; simpl in Hrun; try discriminate.
    + destruct (body s) as [s'| |] eqn:Hb; simpl in Hrun; try discriminate.
      eapply IH; [|exact Hrun]. eauto.
    + inversion Hrun; subst. auto.
Qed.

(** A loop that returns raises nothing on the way: it is a run. *)
Lemma while_run (fuel : nat) (s r : St) :
  while fuel cond body s = Ret r ->
  exists tr, loop_run cond body s tr r /\ (List.length tr < fuel)%nat.
Proof.
  revert s.
  induction fuel as [|fuel IH]; intros s Hrun; simpl in Hrun.
  - discriminate.
  - destruct (cond s) as [[|]| |] eqn:Hc; simpl in Hrun; try discriminate.
    + destruct (body s) as [s'| |] eqn:Hb; simpl in Hrun; try discriminate.
      destruct (IH _ Hrun) as (tr & Htr & Hlen).
      exists (s :: tr). split; [econstructor; eauto | simpl; lia].
    + inversion Hrun; subst. exists []. split; [constructor; auto | simpl; lia].
Qed.

Lemma run_while (s r : St) (tr : list St) :
  loop_run cond body s tr r ->
  forall fuel, (List.length tr < fuel)%nat ->
               while fuel cond body s = Ret r.
Proof.
  induction 1 as [s Hc | s s' tr r Hc Hb Hrun IH]; intros fuel Hlen.
  - destruct fuel; [inversion Hlen|]. simpl. now rewrite Hc.
  - destruct fuel; [inversion Hlen|]. simpl in *. rewrite Hc. simpl.
    rewrite Hb. simpl. apply IH. lia.
Qed.

(** The states in which the body ran satisfy the condition, the state in
    which the loop is left does not. *)
Lemma loop_run_cond (s r : St) (tr : list St) :
  loop_run cond body s tr r ->
  Forall (fun x => cond x = Ret true) tr /\ cond r = Ret false.
Proof.
  induction 1 as [s Hc | s s' tr r Hc Hb Hrun [IH1 IH2]]; split; auto.
Qed.

(** A measure that decreases along the body bounds the fuel needed. *)
Lemma while_terminates (I : St -> Prop) (m : St -> nat) :
  (forall s, I s ->
     cond s = Ret false \/
     (cond s = Ret true /\
      exists s', body s = Ret s' /\ I s' /\ (m s' < m s)%nat)) ->
  forall fuel s,
    I s -> (m s < fuel)%nat ->
    exists r, while fuel cond body s = Ret r /\ I r /\ cond r = Ret false.
Proof.
  intros Hstep fuel.
  induction fuel as [|fuel IH]; intros s Hs Hm.
  - inversion Hm.
  - simpl. destruct (Hstep s Hs) as [Hc|(Hc & s' & Hb & Hs' & Hlt)];
      rewrite Hc; simpl.
    + exists s. auto.
    + rewrite Hb. simpl. apply IH; [exact Hs' | lia].
Qed.


(** A loop whose condition never fails and never raises does not
    return. *)
Lemma while_forever :
  (forall s b, cond s = Ret b -> b = true) ->
  forall fuel s r, while fuel cond body s <> Ret r.
Proof.
  intros Hc fuel. induction fuel as [|fuel IH]; intros s r; simpl.
  - discriminate.
  - destruct (cond s) as [b| |] eqn:E; simpl; try discriminate.
    rewrite (Hc _ _ E).
    destruct (body s) as [s'| |]; simpl; [apply IH | discriminate..].
Qed.

End WhileFacts.

(** More fuel, and a condition and a body that return at least as often,
    give the same result. *)
Lemma while_mono {St : Type} (cond cond' : St -> res bool)
    (body body' : St -> res St) :
  (forall s b, cond s = Ret b -> cond' s = Ret b) ->
  (forall s s', body s = Ret s' -> body' s = Ret s') ->
  forall fuel fuel' s r,
    (fuel <= fuel')%nat ->
    while fuel cond body s = Ret r -> while fuel' cond' body' s = Ret r.
Proof.
  intros Hc Hb fuel.
  induction fuel as [|fuel IH]; intros fuel' s r Hle Hrun; simpl in Hrun.
  - discriminate.
  - destruct fuel' as [|fuel']; [lia|]. simpl.
    destruct (cond s) as [b| |] eqn:Ec; simpl in Hrun; try discriminate.
    rewrite (Hc _ _ Ec). simpl. destruct b; [|exact Hrun].
    destruct (body s) as [s'| |] eqn:Hs; simpl in Hrun; try discriminate.
    rewrite (Hb _ _ Hs). simpl. apply IH; [lia | exact Hrun].
Qed.

(** Loops whose condition only computes. *)
Section TestLoops.

Context {St : Type}.
Variables (cond : St -> bool) (body : St -> res St).

Lemma test_ret (s : St) (b : bool) : test cond s = Ret b <-> cond s = b.
Proof. unfold test. split; [intros H; inversion H; reflexivity | congruence]. Qed.

Lemma test_inv (I : St -> Prop) :
  (forall s s', I s -> cond s = true -> body s = Ret s' -> I s') ->
  forall fuel s r,
    I s -> while fuel (test cond) body s = Ret r -> I r /\ cond r = false.
Proof.
  intros Hstep fuel s r Hs Hrun.
  apply (while_inv _ _ I) in Hrun; [| |exact Hs].
  - destruct Hrun as [Hr Hc]. split; [exact Hr | apply test_ret; exact Hc].
  - intros x x' Hx Hc. apply Hstep; [exact Hx | apply test_ret; exact Hc].
Qed.


Lemma test_mono (body' : St -> res St) :
  (forall s s', body s = Ret s' -> body' s = Ret s') ->
  forall fuel fuel' s r,
    (fuel <= fuel')%nat ->
    while fuel (test cond) body s = Ret r ->
    while fuel' (test cond) body' s = Ret r.
Proof. intros Hb. apply while_mono; auto. Qed.

Lemma test_no_raise :
  (forall s e, body s <> Raise e) ->
  forall fuel s e, while fuel (test cond) body s <> Raise e.
Proof.
  intros Hb fuel. induction fuel as [|fuel IH]; intros s e; simpl.
  - discriminate.
  - destruct (cond s); simpl; [|discriminate].
    destruct (body s) as [s'| e' |] eqn:E; simpl.
    + apply IH.
    + exfalso. apply (Hb s e'). exact E.
    + discriminate.
Qed.

End TestLoops.

(** ** Ranges *)

Lemma range_from_In (start step : Z) (n : nat) (i : Z) :
  In i (range_from start step n) <->
  exists k : nat, (k < n)%nat /\ i = start + Z.of_nat k * step.
Proof.
  revert start.
  induction n as [|n IH]; intros start; simpl.
  - split; [tauto | intros (k & Hk & _); lia].
  - rewrite IH. split.
    + intros [<- | (k & Hk & ->)].
      * exists 0%nat. split; lia.
      * exists (S k). split; lia.
    + intros (k & Hk & ->). destruct k as [|k].
      * left. lia.
      * right. exists k. split; lia.
Qed.

Lemma range_In (start stop step i : Z) :
  0 < step ->
  In i (range start stop step) <->
  exists k, 0 <= k /\ i = start + k * step /\ i < stop.
Proof.
  intros Hstep. unfold range. rewrite range_from_In.
  set (d := stop - start + step - 1).
  assert (Hdiv : forall k, k < d / step <-> start + k * step < stop).
  { intros k. split; intros H.
    - assert (step * (k + 1) <= d).
      { pose proof (Z.mul_div_le d step Hstep). nia. }
      subst d. lia.
    - assert (k + 1 <= d / step); [|lia].
      apply Z.div_le_lower_bound; [lia|]. subst d. lia. }
  split.
  - intros (k & Hk & ->). exists (Z.of_nat k).
    split; [lia|]. split; [reflexivity|]. apply Hdiv. lia.
  - intros (k & Hk & -> & Hlt). exists (Z.to_nat k).
    rewrite Z2Nat.id by lia. split; [|reflexivity].
    apply Hdiv in Hlt. lia.
Qed.

(** The divisors [is_prime] tries: the odd numbers of [[3, r]]. *)
Lemma odd_range_In (r i : Z) :
  In i (range 3 (r + 1) 2) <-> 3 <= i <= r /\ Z.odd i = true.
Proof.
  rewrite range_In by lia. split.
  - intros (k & Hk & -> & Hlt). split; [lia|].
    replace (3 + k * 2) with (1 + 2 * (k + 1)) by lia.
    rewrite Z.odd_add_mul_2. reflexivity.
  - intros [Hi Hodd]. apply Z.odd_spec in Hodd. destruct Hodd as [m ->].
    exists (m - 1). lia.
Qed.

(** The divisors of plain trial division: all of [[2, r]]. *)
Lemma all_range_In (r i : Z) :
  In i (range 2 (r + 1) 1) <-> 2 <= i <= r.
Proof.
  rewrite range_In by lia. split.
  - intros (k & Hk & -> & Hlt). lia.
  - intros Hi. exists (i - 2). lia.
Qed.

(** ** The primality oracle *)

Lemma no_divisor_in_true (n : Z) (l : list Z) :
  no_divisor_in n l = true <-> forall i, In i l -> n mod i <> 0.
Proof.
  induction l as [|i l IH]; simpl.
  - split; [intros _ j [] | reflexivity].
  - destruct (Z.eqb_spec (n mod i) 0) as [E|E].
    + split; [discriminate|]. intros H. exfalso. apply (H i); auto.
    + rewrite IH. split.
      * intros H j [<-|Hj]; auto.
      * intros H j Hj. apply H. auto.
Qed.


(** A proper divisor of [n] comes with one that is at most the square
    root. *)
Lemma small_divisor (n d : Z) :
  1 < d < n -> (d | n) -> exists a, 1 < a <= Z.sqrt n /\ (a | n).
Proof.
  intros Hd [e He].
  assert (1 < e) by nia.
  destruct (Z_le_gt_dec d e) as [Hle|Hgt].
  - exists d. split; [|exists e; exact He].
    split; [lia|]. apply Z.sqrt_le_square; nia.
  - exists e. split; [|exists d; lia].
    split; [lia|]. apply Z.sqrt_le_square; nia.
Qed.

Lemma odd_divisor (n a : Z) : n mod 2 <> 0 -> (a | n) -> Z.odd a = true.
Proof.
  intros Hn [e ->].
  destruct (Z.odd a) eqn:E; [reflexivity|]. exfalso. apply Hn.
  rewrite Zmod_odd, Z.odd_mul, E, andb_false_r. reflexivity.
Qed.

(** With the exact square root, the test decides primality. *)
Lemma exact_test_iff (n : Z) : exact_test n = true <-> Z.prime n.
Proof.
  unfold exact_test.
  destruct (Z.ltb_spec n 2) as [Hlt|Hge].
  { split; [discriminate|]. intros [H _]. lia. }
  destruct (Z.eqb_spec n 2) as [->|Hne].
  { split; [intros _; exact Z.prime_2 | reflexivity]. }
  destruct (Z.eqb_spec (n mod 2) 0) as [Heven|Hodd].
  { split; [discriminate|]. intros [_ H]. exfalso. apply (H 2); [lia|].
    apply Z.mod_divide; [lia | exact Heven]. }
  rewrite no_divisor_in_true. split.
  - intros H. split; [lia|].
    intros d Hd Hdiv.
    destruct (small_divisor n d Hd Hdiv) as (a & Ha & Hadiv).
    apply (H a).
    + apply odd_range_In. split; [|eapply odd_divisor; eauto].
      assert (a <> 2); [|lia].
      intros ->. apply odd_divisor with (n := n) in Hadiv; [discriminate|auto].
    + apply Z.mod_divide; [lia | exact Hadiv].
  - intros [_ H] i Hi Hmod. apply odd_range_In in Hi. destruct Hi as [Hi _].
    apply (H i).
    + pose proof (Z.sqrt_lt_lin n). lia.
    + apply Z.mod_divide; [lia | exact Hmod].
Qed.

Lemma exact_test_false_iff (n : Z) : exact_test n = false <-> ~ Z.prime n.
Proof.
  rewrite <- exact_test_iff. destruct (exact_test n); split; congruence.
Qed.


Lemma float_limit_large : 2 ^ 52 < float_limit.
Proof. apply Z.ltb_lt. vm_compute. reflexivity. Qed.

Lemma cautious_root_spec : root_spec cautious_root.
Proof.
  pose proof float_limit_large as HL.
  unfold root_spec, cautious_root. repeat split.
  - intros n. destruct (n <? 0); [destruct (- float_limit <? n)|destruct (n <? 2 ^ 52)];
      discriminate.
  - intros n Hn. destruct (Z.ltb_spec n 0); [lia|].
    destruct (Z.ltb_spec n (2 ^ 52)); [lia | reflexivity].
  - intros n Hn. destruct (Z.ltb_spec n 0); [|lia].
    destruct (Z.ltb_spec (- float_limit) n); [lia | reflexivity].
  - intros n Hn. destruct (Z.ltb_spec n 0); [|lia].
    destruct (Z.ltb_spec (- float_limit) n); [reflexivity | lia].
  - intros n Hn. destruct (Z.ltb_spec n 0); [lia|].
    destruct (Z.ltb_spec n (2 ^ 52)); [reflexivity | lia].
Qed.

Lemma nearest_root_spec : root_spec nearest_root.
Proof.
  pose proof float_limit_large as HL.
  unfold root_spec, nearest_root. repeat split.
  - intros n. destruct (n <? 0); [destruct (- float_limit <? n); discriminate|].
    destruct (n <? 2 ^ 52); [discriminate|].
    destruct (float_limit <=? n); discriminate.
  - intros n Hn. destruct (Z.ltb_spec n 0); [lia|].
    destruct (Z.ltb_spec n (2 ^ 52)); [lia|].
    destruct (Z.leb_spec float_limit n); [reflexivity | lia].
  - intros n Hn. destruct (Z.ltb_spec n 0); [|lia].
    destruct (Z.ltb_spec (- float_limit) n); [lia | reflexivity].
  - intros n Hn. destruct (Z.ltb_spec n 0); [|lia].
    destruct (Z.ltb_spec (- float_limit) n); [reflexivity | lia].
  - intros n Hn. destruct (Z.ltb_spec n 0); [lia|].
    destruct (Z.ltb_spec n (2 ^ 52)); [reflexivity | lia].
Qed.

Example nearest_root_rounds_up :
  nearest_root 4503601640636640 = Ret 67108879 /\
  Z.sqrt 4503601640636640 = 67108878.
Proof. split; vm_compute; reflexivity. Qed.

(** What [cautious_root] returns, every function that meets [root_spec]
    returns. *)
Lemma cautious_root_least (root : Z -> res Z) (n v : Z) :
  root_spec root -> cautious_root n = Ret v -> root n = Ret v.
Proof.
  intros (_ & _ & _ & _ & Hexact). unfold cautious_root.
  destruct (Z.ltb_spec n 0) as [|H0]; [destruct (- float_limit <? n); discriminate|].
  destruct (Z.ltb_spec n (2 ^ 52)) as [H52|]; [|discriminate].
  intros Hv. rewrite Hexact by lia. exact Hv.
Qed.

Section Oracle.

Variable root : Z -> res Z.

(** What [is_prime] accepts is 2 or an odd number from 3 on, whatever the
    power rounds to. *)
Lemma is_prime_accepts (n : Z) :
  is_prime root n = Ret true -> n = 2 \/ (3 <= n /\ Z.odd n = true).
Proof.
  unfold is_prime.
  destruct (Z.ltb_spec n 2); [discriminate|].
  destruct (Z.eqb_spec n 2); [auto|].
  destruct (Z.eqb_spec (n mod 2) 0) as [|Hodd]; [discriminate|].
  intros _. right. split; [lia|].
  rewrite Zmod_odd in Hodd. destruct (Z.odd n); [reflexivity | contradiction].
Qed.

Hypothesis root_ok : root_spec root.

(** Below [2 ** 52] the test is the exact one. *)
Lemma is_prime_below (n : Z) :
  n < 2 ^ 52 -> is_prime root n = Ret (exact_test n).
Proof.
  intros Hn. unfold is_prime, exact_test.
  destruct (Z.ltb_spec n 2); [reflexivity|].
  destruct (Z.eqb_spec n 2); [reflexivity|].
  destruct (Z.eqb_spec (n mod 2) 0); [reflexivity|].
  destruct root_ok as (_ & _ & _ & _ & Hexact).
  rewrite Hexact by lia. reflexivity.
Qed.




End Oracle.



(** ** Directional prime search *)

Lemma even_not_prime (x : Z) : 2 < x -> x mod 2 = 0 -> ~ Z.prime x.
Proof.
  intros Hx Hmod [_ H]. apply (H 2); [lia|].
  apply Z.mod_divide; [lia | exact Hmod].
Qed.

Lemma odd_succ_even (c : Z) : Z.odd c = true -> (c + 1) mod 2 = 0.
Proof.
  intros H. rewrite Zmod_odd, Z.odd_add, H. reflexivity.
Qed.

Lemma prime_odd (p : Z) : Z.prime p -> 2 < p -> Z.odd p = true.
Proof.
  intros Hp H2. destruct (Z.odd p) eqn:E; [reflexivity|]. exfalso.
  apply (even_not_prime p H2); [|exact Hp]. rewrite Zmod_odd, E. reflexivity.
Qed.

(** The first candidate of [next_prime] is the least odd number above [n]. *)
Lemma next_candidate_spec (n : Z) :
  let c := if n mod 2 =? 0 then n + 1 else n + 2 in
  n < c <= n + 2 /\ Z.odd c = true /\ (forall x, n < x < c -> x mod 2 = 0).
Proof.
  pose proof (Zmod_odd n) as Hn.
  destruct (Z.eqb_spec (n mod 2) 0) as [E|E]; simpl.
  - split; [lia|]. split; [|intros; lia].
    rewrite Z.odd_add. destruct (Z.odd n); [lia | reflexivity].
  - split; [lia|]. split.
    + rewrite Z.odd_add. destruct (Z.odd n); [reflexivity | lia].
    + intros x Hx. replace x with (n + 1) by lia.
      apply odd_succ_even. destruct (Z.odd n); [reflexivity | lia].
Qed.

(** The first candidate of [prev_prime] is the greatest odd number below
    [n]. *)
Lemma prev_candidate_spec (n : Z) :
  let c := if n mod 2 =? 0 then n - 1 else n - 2 in
  n - 2 <= c < n /\ Z.odd c = true /\ (forall x, c < x < n -> x mod 2 = 0).
Proof.
  pose proof (Zmod_odd n) as Hn.
  destruct (Z.eqb_spec (n mod 2) 0) as [E|E]; simpl.
  - split; [lia|]. split; [|intros; lia].
    rewrite Z.odd_sub. destruct (Z.odd n); [lia | reflexivity].
  - split; [lia|]. split.
    + rewrite Z.odd_sub. destruct (Z.odd n); [reflexivity | lia].
    + intros x Hx. replace x with (n - 2 + 1) by lia.
      apply odd_succ_even. rewrite Z.odd_sub.
      destruct (Z.odd n); [reflexivity | lia].
Qed.

(** The conditions of the two loops. *)
Lemma negated_ret (x : res bool) (v : bool) :
  (b <- x ;; Ret (negb b)) = Ret v <-> x = Ret (negb v).
Proof.
  destruct x as [b| |]; simpl; split; intros H; try discriminate.
  - inversion H. rewrite negb_involutive. reflexivity.
  - inversion H. rewrite negb_involutive. reflexivity.
Qed.

Lemma guarded_ret (oracle : Z -> res bool) (c : Z) (v : bool) :
  (if c >? 2 then b <- oracle c ;; Ret (negb b) else Ret false) = Ret v <->
  (c <= 2 /\ v = false) \/ (2 < c /\ oracle c = Ret (negb v)).
Proof.
  destruct (Z.gtb_spec c 2) as [Hgt|Hle].
  - rewrite negated_ret. split; [intros H; right; split; [lia | exact H]|].
    intros [[H _]|[_ H]]; [lia | exact H].
  - split.
    + intros H. inversion H. left. split; [lia | reflexivity].
    + intros [[_ ->]|[H _]]; [reflexivity | lia].
Qed.

Section SearchFacts.

Variable root : Z -> res Z.

(** What [next_prime] returns is an odd number above [n] that [is_prime]
    accepts, whatever the power rounds to. *)
Lemma next_prime_sound (fuel : nat) (n p : Z) :
  next_prime root fuel n = Ret p ->
  n < p /\ Z.odd p = true /\ is_prime root p = Ret true /\ 3 <= p.
Proof.
  unfold next_prime, next_prime_with. intros H.
  destruct (next_candidate_spec n) as (Hc & Hodd & _).
  apply (while_inv _ _ (fun c => n < c /\ Z.odd c = true)) in H.
  - destruct H as [[Hlt Ho] Hex]. apply negated_ret in Hex. simpl in Hex.
    split; [exact Hlt|]. split; [exact Ho|]. split; [exact Hex|].
    destruct (is_prime_accepts root p Hex) as [->|[H3 _]]; [discriminate | exact H3].
  - intros s s' [Hs Ho] _ Hb. inversion Hb; subst. split; [lia|].
    rewrite Z.odd_add, Ho. reflexivity.
  - split; [lia | exact Hodd].
Qed.

Lemma next_prime_mono (fuel fuel' : nat) (n p : Z) :
  (fuel <= fuel')%nat ->
  next_prime root fuel n = Ret p -> next_prime root fuel' n = Ret p.
Proof.
  unfold next_prime, next_prime_with. intros Hle H.
  eapply while_mono; [| | exact Hle | exact H]; auto.
Qed.

Lemma prev_prime_mono (fuel fuel' : nat) (n p : Z) :
  (fuel <= fuel')%nat ->
  prev_prime root fuel n = Ret p -> prev_prime root fuel' n = Ret p.
Proof.
  unfold prev_prime, prev_prime_with. intros Hle H.
  eapply while_mono; [| | exact Hle | exact H]; auto.
Qed.

(** What [prev_prime] returns is odd and below [n], and is at most 2 or
    accepted by [is_prime]. *)
Lemma prev_prime_odd (fuel : nat) (n r : Z) :
  prev_prime root fuel n = Ret r ->
  Z.odd r = true /\ r < n /\ (r <= 2 \/ is_prime root r = Ret true).
Proof.
  intros H. destruct (prev_candidate_spec n) as (Hc & Hodd & _).
  unfold prev_prime, prev_prime_with in H.
  apply (while_inv _ _ (fun c => Z.odd c = true /\ c < n)) in H.
  - destruct H as [[Ho Hlt] Hex]. split; [exact Ho|]. split; [exact Hlt|].
    apply guarded_ret in Hex. destruct Hex as [[Hle _]|[_ Hex]]; [left; exact Hle|].
    right. exact Hex.
  - intros s s' [Ho Hs] _ Hb. inversion Hb; subst.
    split; [rewrite Z.odd_sub, Ho; reflexivity | lia].
  - split; [exact Hodd | lia].
Qed.

Hypothesis root_ok : root_spec root.

(** Below [2 ** 52], what [next_prime] returns is a prime. *)
Lemma next_prime_prime (fuel : nat) (n p : Z) :
  next_prime root fuel n = Ret p -> p < 2 ^ 52 -> Z.prime p.
Proof.
  intros H Hp. apply next_prime_sound in H. destruct H as (_ & _ & H & _).
  rewrite (is_prime_below root root_ok p Hp) in H. inversion H as [E].
  apply exact_test_iff. exact E.
Qed.

(** [next_prime] skips no odd prime below [2 ** 52]. *)
Lemma next_prime_least_odd (fuel : nat) (n p : Z) :
  next_prime root fuel n = Ret p ->
  forall x, n < x < p -> x < 2 ^ 52 -> Z.odd x = true -> ~ Z.prime x.
Proof.
  unfold next_prime, next_prime_with. intros H.
  destruct (next_candidate_spec n) as (Hc & Hodd & Hgap).
  apply (while_inv _ _ (fun c => n < c /\ Z.odd c = true /\
           forall x, n < x < c -> x < 2 ^ 52 -> Z.odd x = true -> ~ Z.prime x))
    in H.
  - destruct H as [(_ & _ & H) _]. exact H.
  - intros s s' (Hs & Ho & Hbelow) Hcond Hb. inversion Hb; subst.
    split; [lia|]. split; [rewrite Z.odd_add, Ho; reflexivity|].
    intros x Hx Hx52 Hxo.
    destruct (Z_lt_ge_dec x s) as [Hlt|Hge]; [apply Hbelow; [lia | exact Hx52 | exact Hxo]|].
    destruct (Z.eq_dec x s) as [->|Hne].
    + apply negated_ret in Hcond. simpl in Hcond.
      rewrite (is_prime_below root root_ok s Hx52) in Hcond.
      inversion Hcond as [E]. apply exact_test_false_iff. exact E.
    + exfalso. replace x with (s + 1) in Hxo by lia.
      rewrite Z.odd_add, Ho in Hxo. discriminate.
  - split; [lia|]. split; [exact Hodd|].
    intros x Hx _ Hxo. exfalso. specialize (Hgap x Hx).
    rewrite Zmod_odd, Hxo in Hgap. discriminate.
Qed.

(** From 2 on, [next_prime] skips no prime below [2 ** 52]. *)
Lemma next_prime_least (fuel : nat) (n p : Z) :
  2 <= n -> next_prime root fuel n = Ret p ->
  forall x, n < x < p -> x < 2 ^ 52 -> ~ Z.prime x.
Proof.
  intros Hn H x Hx Hx52 Hprime.
  apply (next_prime_least_odd fuel n p H x Hx Hx52); [|exact Hprime].
  apply prime_odd; [exact Hprime | lia].
Qed.

(** The upward scan stops at the latest at an odd prime ahead of it. *)
Lemma next_prime_scan (k : nat) :
  forall (fuel : nat) (c : Z),
    (k < fuel)%nat -> c + 2 * Z.of_nat k < 2 ^ 52 ->
    Z.prime (c + 2 * Z.of_nat k) ->
    exists r, while fuel (fun c => b <- is_prime root c ;; Ret (negb b))
                (fun c => Ret (c + 2)) c
              = Ret r /\ c <= r <= c + 2 * Z.of_nat k.
Proof.
  induction k as [|k IH]; intros fuel c Hk Hb Hp.
  - destruct fuel; [lia|]. simpl.
    rewrite (is_prime_below root root_ok c) by lia.
    replace (c + 2 * Z.of_nat 0) with c in Hp by lia.
    apply exact_test_iff in Hp. rewrite Hp. simpl.
    exists c. split; [reflexivity | lia].
  - destruct fuel; [lia|]. simpl.
    rewrite (is_prime_below root root_ok c) by lia.
    destruct (exact_test c) eqn:E; simpl.
    + exists c. split; [reflexivity | lia].
    + destruct (IH fuel (c + 2)) as (r & Hr & Hbr); [lia | lia | |].
      * replace (c + 2 + 2 * Z.of_nat k) with (c + 2 * Z.of_nat (S k)) by lia.
        exact Hp.
      * exists r. split; [exact Hr | lia].
Qed.

(** With an odd prime [P] below [2 ** 52] above [n], fuel [P - n] is
    enough for [next_prime n], which then returns a prime of [(n, P]]. *)
Lemma next_prime_bounded (P n : Z) (fuel : nat) :
  Z.prime P -> 2 < P < 2 ^ 52 -> n < P -> (Z.to_nat (P - n) <= fuel)%nat ->
  exists p, next_prime root fuel n = Ret p /\ n < p <= P /\ Z.prime p.
Proof.
  intros HP H2 Hn Hfuel.
  destruct (next_candidate_spec n) as (Hc & Hodd & Hgap).
  assert (E : exists p, next_prime root fuel n = Ret p /\ n < p <= P).
  { unfold next_prime, next_prime_with.
    set (c := if n mod 2 =? 0 then n + 1 else n + 2) in *.
    assert (HPodd : Z.odd P = true) by (apply prime_odd; [exact HP | lia]).
    assert (HcP : c <= P).
    { destruct (Z_le_gt_dec c P) as [|Hgt]; [assumption|]. exfalso.
      assert (Hev : P mod 2 = 0) by (apply Hgap; lia).
      rewrite Zmod_odd, HPodd in Hev. discriminate. }
    assert (Hk : exists k, P = c + 2 * Z.of_nat k).
    { apply Z.odd_spec in HPodd. destruct HPodd as [a Ha].
      apply Z.odd_spec in Hodd. destruct Hodd as [b Hb].
      exists (Z.to_nat (a - b)). lia. }
    destruct Hk as [k Hk].
    destruct (next_prime_scan k fuel c) as (r & Hr & Hb).
    - lia.
    - lia.
    - rewrite <- Hk. exact HP.
    - exists r. split; [exact Hr | lia]. }
  destruct E as (p & Hp & Hb). exists p. split; [exact Hp|]. split; [exact Hb|].
  apply (next_prime_prime fuel n p Hp). lia.
Qed.

(** Up to [2 ** 52], [prev_prime n] returns. *)
Lemma prev_prime_returns (n : Z) (fuel : nat) :
  n <= 2 ^ 52 -> (Z.to_nat n < fuel)%nat ->
  exists r, prev_prime root fuel n = Ret r.
Proof.
  intros Hn Hfuel. unfold prev_prime, prev_prime_with.
  set (c := if n mod 2 =? 0 then n - 1 else n - 2).
  assert (Hc : c < n) by (subst c; destruct (n mod 2 =? 0); lia).
  destruct (while_terminates
              (fun c => if c >? 2 then b <- is_prime root c ;; Ret (negb b)
                        else Ret false)
              (fun c => Ret (c - 2))
              (fun c => c < n) (fun c => Z.to_nat c)) with (fuel := fuel) (s := c)
    as (r & Hr & _).
  - intros s Hs. destruct (Z.gtb_spec s 2) as [Hgt|Hle]; [|left; reflexivity].
    rewrite (is_prime_below root root_ok s) by lia.
    destruct (exact_test s); simpl; [left; reflexivity | right].
    split; [reflexivity|]. exists (s - 2). split; [reflexivity|]. lia.
  - exact Hc.
  - lia.
  - exists r. exact Hr.
Qed.

(** From 4 up to [2 ** 52], [prev_prime] returns the greatest prime below
    [n]. *)
Lemma prev_prime_greatest (fuel : nat) (n r : Z) :
  4 <= n <= 2 ^ 52 -> prev_prime root fuel n = Ret r ->
  Z.prime r /\ r < n /\ forall x, r < x < n -> ~ Z.prime x.
Proof.
  unfold prev_prime, prev_prime_with. intros Hn H.
  destruct (prev_candidate_spec n) as (Hc & Hodd & Hgap).
  set (c := if n mod 2 =? 0 then n - 1 else n - 2) in *.
  assert (Hc3 : 3 <= c).
  { destruct (Z_le_gt_dec 3 c) as [|Hlt]; [assumption|]. exfalso.
    assert (E : c = 2) by lia. rewrite E in Hodd. discriminate. }
  apply (while_inv _ _ (fun c => 3 <= c < n /\ Z.odd c = true /\
                                 forall x, c < x < n -> ~ Z.prime x)) in H.
  - destruct H as [(Hr & _ & Hnone) Hex].
    apply guarded_ret in Hex. destruct Hex as [[Hle _]|[_ Hex]]; [lia|].
    simpl in Hex. rewrite (is_prime_below root root_ok r) in Hex by lia.
    inversion Hex as [E]. apply exact_test_iff in E.
    split; [exact E|]. split; [lia | exact Hnone].
  - intros s s' (Hs & Ho & Habove) Hcond Hb. inversion Hb; subst.
    apply guarded_ret in Hcond. destruct Hcond as [[_ Hf]|[_ Hnp]]; [discriminate|].
    simpl in Hnp. rewrite (is_prime_below root root_ok s) in Hnp by lia.
    inversion Hnp as [E].
    assert (Hs3 : s <> 3) by (intros ->; discriminate).
    assert (Hs4 : s <> 4) by (intros ->; discriminate).
    split; [lia|]. split; [rewrite Z.odd_sub, Ho; reflexivity|].
    intros x Hx.
    destruct (Z_lt_ge_dec s x) as [Hlt|Hge]; [apply Habove; lia|].
    destruct (Z.eq_dec x s) as [->|Hne].
    + apply exact_test_false_iff. exact E.
    + replace x with (s - 2 + 1) by lia.
      apply even_not_prime; [lia|]. apply odd_succ_even.
      rewrite Z.odd_sub, Ho. reflexivity.
  - split; [lia|]. split; [exact Hodd|].
    intros x Hx. apply even_not_prime; [lia | apply Hgap; exact Hx].
Qed.

End SearchFacts.

(** ** Runs over two roots *)

(** A run that returns over one root returns the same over any root that
    answers at least as often; with more fuel too. *)
Section Refinement.

Variables root root' : Z -> res Z.
Variables run run' : nat -> Z -> res Empty_set.

Hypothesis root_le : forall n v, root n = Ret v -> root' n = Ret v.

Lemma is_prime_refine (n : Z) (b : bool) :
  is_prime root n = Ret b -> is_prime root' n = Ret b.
Proof.
  unfold is_prime.
  destruct (n <? 2); [auto|]. destruct (n =? 2); [auto|].
  destruct (n mod 2 =? 0); [auto|].
  intros H. apply bind_ret in H. destruct H as (r & Hr & H).
  rewrite (root_le _ _ Hr). exact H.
Qed.

Lemma negated_refine (c : Z) (b : bool) :
  (v <- is_prime root c ;; Ret (negb v)) = Ret b ->
  (v <- is_prime root' c ;; Ret (negb v)) = Ret b.
Proof.
  intros H. apply bind_ret in H. destruct H as (v & Hv & H).
  rewrite (is_prime_refine _ _ Hv). exact H.
Qed.

Lemma next_prime_refine (fuel fuel' : nat) (n p : Z) :
  (fuel <= fuel')%nat ->
  next_prime root fuel n = Ret p -> next_prime root' fuel' n = Ret p.
Proof.
  unfold next_prime, next_prime_with. intros Hle H.
  eapply while_mono; [| | exact Hle | exact H]; [|auto].
  intros s b. apply negated_refine.
Qed.

Lemma prev_prime_refine (fuel fuel' : nat) (n p : Z) :
  (fuel <= fuel')%nat ->
  prev_prime root fuel n = Ret p -> prev_prime root' fuel' n = Ret p.
Proof.
  unfold prev_prime, prev_prime_with. intros Hle H.
  eapply while_mono; [| | exact Hle | exact H]; [|auto].
  intros s b. cbv beta. destruct (s >? 2); [apply negated_refine | auto].
Qed.

Lemma shrink_body_refine (fuel fuel' : nat) (st st' : gs_locals) :
  (fuel <= fuel')%nat ->
  shrink_body root fuel st = Ret st' -> shrink_body root' fuel' st = Ret st'.
Proof.
  unfold shrink_body. intros Hle H.
  apply bind_ret in H. destruct H as (q & Hq & H).
  rewrite (prev_prime_refine _ _ _ _ Hle Hq). exact H.
Qed.

Lemma grow_body_refine (fuel fuel' : nat) (st st' : gs_locals) :
  (fuel <= fuel')%nat ->
  grow_body root fuel st = Ret st' -> grow_body root' fuel' st = Ret st'.
Proof.
  unfold grow_body. intros Hle H.
  apply bind_ret in H. destruct H as (q & Hq & H).
  rewrite (next_prime_refine _ _ _ _ Hle Hq). exact H.
Qed.

(** A call on a negative digit count does not return. *)
Lemma negative_digits_no_return (fuel : nat) (d : Z) (t : triple) :
  (if d <=? - float_limit then Raise OverflowError
   else v <- run fuel d ;; match v return res triple with end) <> Ret t.
Proof.
  destruct (d <=? - float_limit); [discriminate|].
  destruct (run fuel d) as [[]| |]; discriminate.
Qed.

Lemma generate_semiprime_refine (fuel fuel' : nat) (d : Z) (t : triple) :
  (fuel <= fuel')%nat ->
  generate_semiprime root run fuel d = Ret t ->
  generate_semiprime root' run' fuel' d = Ret t.
Proof.
  unfold generate_semiprime. intros Hle H.
  destruct (d <? 0).
  { exfalso. exact (negative_digits_no_return _ _ _ H). }
  apply bind_ret in H. destruct H as (p & Hp & H).
  apply bind_ret in H. destruct H as (qt & Hqt & H).
  apply bind_ret in H. destruct H as (q & Hq & H).
  apply bind_ret in H. destruct H as (st1 & Hst1 & H).
  apply bind_ret in H. destruct H as (st2 & Hst2 & H).
  rewrite (next_prime_refine _ _ _ _ Hle Hp). simpl. rewrite Hqt. simpl.
  rewrite (next_prime_refine _ _ _ _ Hle Hq). simpl.
  rewrite (test_mono _ _ (shrink_body root' fuel')
             (fun s s' => shrink_body_refine _ _ s s' Hle) _ _ _ _ Hle Hst1).
  simpl.
  rewrite (test_mono _ _ (grow_body root' fuel')
             (fun s s' => grow_body_refine _ _ s s' Hle) _ _ _ _ Hle Hst2).
  simpl. exact H.
Qed.

Lemma inner_body_refine (fuel fuel' : nat) (min_val max_val count p : Z)
    (st st' : inner_state) :
  (fuel <= fuel')%nat ->
  inner_body root fuel min_val max_val count p st = Ret st' ->
  inner_body root' fuel' min_val max_val count p st = Ret st'.
Proof.
  unfold inner_body. intros Hle H.
  destruct ((min_val <=? in_product st) && (in_product st <=? max_val)
            && (len_str (in_product st) =? len_str min_val)).
  - destruct (len (in_results st ++ [(p, in_q st, in_product st)]) >=? count);
      [exact H|].
    apply bind_ret in H. destruct H as (q & Hq & H).
    rewrite (next_prime_refine _ _ _ _ Hle Hq). exact H.
  - apply bind_ret in H. destruct H as (q & Hq & H).
    rewrite (next_prime_refine _ _ _ _ Hle Hq). exact H.
Qed.

Lemma outer_body_refine (fuel fuel' : nat) (min_val max_val count : Z)
    (st st' : outer_state) :
  (fuel <= fuel')%nat ->
  outer_body root fuel min_val max_val count st = Ret st' ->
  outer_body root' fuel' min_val max_val count st = Ret st'.
Proof.
  unfold outer_body. intros Hle H.
  apply bind_ret in H. destruct H as (d & Hd & H).
  apply bind_ret in H. destruct H as (q & Hq & H).
  apply bind_ret in H. destruct H as (inner & Hinner & H).
  apply bind_ret in H. destruct H as (p' & Hp' & H).
  rewrite Hd. simpl. rewrite (next_prime_refine _ _ _ _ Hle Hq). simpl.
  rewrite (test_mono _ _ (inner_body root' fuel' min_val max_val count (fst st))
             (fun s s' => inner_body_refine _ _ _ _ _ _ s s' Hle)
             _ _ _ _ Hle Hinner).
  simpl. rewrite (next_prime_refine _ _ _ _ Hle Hp'). exact H.
Qed.

Lemma find_semiprimes_refine (fuel fuel' : nat) (min_val max_val count : Z)
    (results : list triple) :
  (fuel <= fuel')%nat ->
  find_semiprimes_in_range root fuel min_val max_val count = Ret results ->
  find_semiprimes_in_range root' fuel' min_val max_val count = Ret results.
Proof.
  unfold find_semiprimes_in_range. intros Hle H.
  apply bind_ret in H. destruct H as (r & Hr & H).
  apply bind_ret in H. destruct H as (p & Hp & H).
  apply bind_ret in H. destruct H as (st & Hst & H).
  rewrite (root_le _ _ Hr). simpl.
  rewrite (next_prime_refine _ _ _ _ Hle Hp). simpl.
  rewrite (test_mono _ _ (outer_body root' fuel' min_val max_val count)
             (fun s s' => outer_body_refine _ _ _ _ _ s s' Hle)
             _ _ _ _ Hle Hst).
  exact H.
Qed.

End Refinement.

(** *** The downward loop over any test *)




Section SearchClaims.

Variable root : Z -> res Z.
Hypothesis root_ok : root_spec root.

Lemma from_cautious (n v : Z) : cautious_root n = Ret v -> root n = Ret v.
Proof. apply cautious_root_least. exact root_ok. Qed.



(** C4, at the input 1: [next_prime 1] returns 3 and so passes over the
    prime 2, which lies strictly between 1 and 3. *)
Theorem next_prime_skips_two :
  (forall fuel : nat, (1 <= fuel)%nat -> next_prime root fuel 1 = Ret 3) /\
  Z.prime 2 /\ 1 < 2 < 3.
Proof.
  split.
  - intros fuel Hfuel.
    apply (next_prime_refine cautious_root root from_cautious 1 fuel);
      [exact Hfuel | reflexivity].
  - split; [exact Z.prime_2 | lia].
Qed.

(** C5, at the input 3: [prev_prime 3] returns 1, which is neither a prime
    nor 2, although the prime 2 lies below 3. *)
Theorem prev_prime_three_returns_one :
  (forall fuel : nat, (1 <= fuel)%nat -> prev_prime root fuel 3 = Ret 1) /\
  (Z.prime 1 -> False) /\ 1 <> 2 /\ Z.prime 2 /\ 2 < 3.
Proof.
  split.
  - intros fuel Hfuel. apply (prev_prime_mono root 1 fuel); [exact Hfuel | reflexivity].
  - split; [exact Z.not_prime_1|]. split; [lia|]. split; [exact Z.prime_2 | lia].
Qed.

End SearchClaims.


Lemma next_prime_skips_two_witness :
  (forall fuel : nat, (1 <= fuel)%nat -> next_prime cautious_root fuel 1 = Ret 3) /\
  Z.prime 2 /\ 1 < 2 < 3.
Proof. apply (next_prime_skips_two cautious_root cautious_root_spec). Defined.


(** *** The searches below [2 ** 52] *)

Section SearchBelow.

Variable root : Z -> res Z.
Hypothesis root_ok : root_spec root.

(** From 2 on, and as long as a prime below [2 ** 52] lies ahead,
    [next_prime n] returns the least prime above [n]. *)
Theorem next_prime_from_two : forall n P : Z,
  2 <= n -> Z.prime P -> n < P < 2 ^ 52 ->
  exists p, returns (fun fuel => next_prime root fuel n) p /\
            Z.prime p /\ n < p <= P /\ forall x, n < x < p -> ~ Z.prime x.
Proof.
  intros n P Hn HP HnP.
  destruct (next_prime_bounded root root_ok P n (Z.to_nat (P - n)))
    as (p & Hp & Hb & Hprime); [exact HP | lia | lia | lia |].
  exists p. split; [exists (Z.to_nat (P - n)); exact Hp|].
  split; [exact Hprime|]. split; [exact Hb|].
  intros x Hx. apply (next_prime_least root root_ok _ n p Hn Hp x Hx). lia.
Qed.

(** From 4 up to [2 ** 52], [prev_prime n] returns the greatest prime
    below [n]. *)
Theorem prev_prime_from_four : forall n : Z,
  4 <= n <= 2 ^ 52 ->
  exists p, returns (fun fuel => prev_prime root fuel n) p /\
            Z.prime p /\ p < n /\ forall x, p < x < n -> ~ Z.prime x.
Proof.
  intros n Hn.
  destruct (prev_prime_returns root root_ok n (S (Z.to_nat n))) as (r & Hr);
    [lia | lia |].
  exists r. split; [exists (S (Z.to_nat n)); exact Hr|].
  apply (prev_prime_greatest root root_ok _ n r Hn Hr).
Qed.

(** On every integer [n] with a prime [P] below [2 ** 52] ahead,
    [next_prime n] returns, and what it returns is the least odd prime
    above [n]: the result is never 2. *)
Theorem next_prime_every_integer : forall n P : Z,
  Z.prime P -> 2 < P < 2 ^ 52 -> n < P ->
  exists p,
    returns (fun fuel => next_prime root fuel n) p /\
    Z.prime p /\ Z.odd p = true /\ n < p <= P /\
    (forall x, n < x < p -> Z.odd x = true -> ~ Z.prime x).
Proof.
  intros n P HP HP2 HnP.
  destruct (next_prime_bounded root root_ok P n (Z.to_nat (P - n)))
    as (p & Hp & Hb & Hprime); [exact HP | exact HP2 | exact HnP | lia |].
  destruct (next_prime_sound root _ _ _ Hp) as (_ & Hodd & _).
  exists p. split; [exists (Z.to_nat (P - n)); exact Hp|].
  split; [exact Hprime|]. split; [exact Hodd|]. split; [exact Hb|].
  intros x Hx. apply (next_prime_least_odd root root_ok _ n p Hp x Hx). lia.
Qed.

(** Up to 2, the next prime found is always 3. *)
Theorem next_prime_up_to_two : forall n : Z,
  n <= 2 -> returns (fun fuel => next_prime root fuel n) 3.
Proof.
  intros n Hn.
  assert (H52 : 3 < 2 ^ 52) by (apply Z.ltb_lt; reflexivity).
  destruct (next_prime_bounded root root_ok 3 n (Z.to_nat (3 - n)))
    as (p & Hp & Hb & [Hp1 _]); [exact Z.prime_3 | lia | lia | lia |].
  destruct (next_prime_sound root _ _ _ Hp) as (_ & _ & _ & H3).
  assert (p = 3) by lia.
  subst p. exists (Z.to_nat (3 - n)). exact Hp.
Qed.

(** What [prev_prime] returns is odd and below [n], so it is never 2; up
    to 3 it is the first candidate itself ([n - 1] for an even [n],
    [n - 2] for an odd one), which is not a prime. *)
Theorem prev_prime_result_odd :
  forall (fuel : nat) (n r : Z),
    prev_prime root fuel n = Ret r ->
    Z.odd r = true /\ r < n /\
    (n <= 3 ->
     r = (if n mod 2 =? 0 then n - 1 else n - 2) /\ ~ Z.prime r).
Proof.
  intros fuel n r H.
  destruct (prev_candidate_spec n) as (Hc & Hodd & _).
  destruct (prev_prime_odd root _ _ _ H) as (Hro & Hrn & _).
  split; [exact Hro|]. split; [exact Hrn|].
  intros Hn. unfold prev_prime, prev_prime_with in H.
  set (c := if n mod 2 =? 0 then n - 1 else n - 2) in *.
  assert (Hc1 : c <= 1).
  { destruct (Z.eq_dec c 2) as [E|]; [rewrite E in Hodd; discriminate | lia]. }
  destruct fuel as [|fuel]; [discriminate|]. simpl in H.
  destruct (Z.gtb_spec c 2) as [|_]; [lia|]. simpl in H.
  inversion H; subst r. split; [reflexivity|].
  intros [Hp _]. lia.
Qed.

(** From an odd prime with a prime below [2 ** 52] ahead, one step up and
    one step down lead back. *)
Theorem prev_prime_of_next_prime : forall p P : Z,
  Z.prime p -> 3 <= p -> Z.prime P -> p < P < 2 ^ 52 ->
  exists q,
    returns (fun fuel => next_prime root fuel p) q /\
    returns (fun fuel => prev_prime root fuel q) p.
Proof.
  intros p P Hp H3 HP HpP.
  destruct (next_prime_bounded root root_ok P p (Z.to_nat (P - p)))
    as (q & Hq & Hb & Hqp); [exact HP | lia | lia | lia |].
  pose proof (next_prime_least root root_ok _ p q ltac:(lia) Hq) as Hleast.
  exists q. split; [exists (Z.to_nat (P - p)); exact Hq|].
  destruct (prev_prime_returns root root_ok q (S (Z.to_nat q))) as (r & Hr);
    [lia | lia |].
  destruct (prev_prime_greatest root root_ok _ q r ltac:(lia) Hr)
    as (Hrp & Hrq & Hgreat).
  assert (r = p).
  { destruct (Z_lt_ge_dec r p) as [Hlt'|Hge].
    - exfalso. apply (Hgreat p); [lia | exact Hp].
    - destruct (Z.eq_dec r p) as [|Hne]; [assumption|].
      exfalso. apply (Hleast r); [lia | lia | exact Hrp]. }
  subst r. exists (S (Z.to_nat q)). exact Hr.
Qed.

(** From a prime between 5 and [2 ** 52], one step down and one step up
    lead back. *)
Theorem next_prime_of_prev_prime : forall q : Z,
  Z.prime q -> 5 <= q < 2 ^ 52 ->
  exists p,
    returns (fun fuel => prev_prime root fuel q) p /\
    returns (fun fuel => next_prime root fuel p) q.
Proof.
  intros q Hq H5.
  destruct (prev_prime_returns root root_ok q (S (Z.to_nat q))) as (p & Hp);
    [lia | lia |].
  destruct (prev_prime_greatest root root_ok _ q p ltac:(lia) Hp)
    as (Hpp & Hpq & Hgreat).
  exists p. split; [exists (S (Z.to_nat q)); exact Hp|].
  destruct (next_prime_bounded root root_ok q p (Z.to_nat (q - p)))
    as (r & Hr & Hb & Hrp); [exact Hq | lia | lia | lia |].
  assert (r = q).
  { destruct (Z.eq_dec r q) as [|Hne]; [assumption|].
    exfalso. apply (Hgreat r); [lia | exact Hrp]. }
  subst r. exists (Z.to_nat (q - p)). exact Hr.
Qed.

End SearchBelow.

Lemma prime_11 : Z.prime 11.
Proof. apply exact_test_iff. reflexivity. Qed.

Lemma lt_2_52 (n : Z) : (n <? 2 ^ 52) = true -> n < 2 ^ 52.
Proof. apply Z.ltb_lt. Qed.

Lemma next_prime_from_two_witness :
  exists p, returns (fun fuel => next_prime cautious_root fuel 10) p /\
            Z.prime p /\ 10 < p <= 11 /\ forall x, 10 < x < p -> ~ Z.prime x.
Proof.
  apply (next_prime_from_two cautious_root cautious_root_spec 10 11);
    [lia | exact prime_11 | split; [lia | apply lt_2_52; reflexivity]].
Defined.

Lemma prev_prime_from_four_witness :
  exists p, returns (fun fuel => prev_prime cautious_root fuel 10) p /\
            Z.prime p /\ p < 10 /\ forall x, p < x < 10 -> ~ Z.prime x.
Proof.
  apply (prev_prime_from_four cautious_root cautious_root_spec 10).
  split; [lia | apply Z.lt_le_incl, lt_2_52; reflexivity].
Defined.

Lemma next_prime_every_integer_witness :
  exists p,
    returns (fun fuel => next_prime cautious_root fuel (-5)) p /\
    Z.prime p /\ Z.odd p = true /\ -5 < p <= 11 /\
    (forall x, -5 < x < p -> Z.odd x = true -> ~ Z.prime x).
Proof.
  apply (next_prime_every_integer cautious_root cautious_root_spec (-5) 11);
    [exact prime_11 | split; [lia | apply lt_2_52; reflexivity] | lia].
Defined.

Lemma next_prime_up_to_two_witness :
  returns (fun fuel => next_prime cautious_root fuel (-7)) 3.
Proof.
  apply (next_prime_up_to_two cautious_root cautious_root_spec (-7)). lia.
Defined.

Lemma prev_prime_result_odd_witness :
  Z.odd 1 = true /\ 1 < 3 /\
  (3 <= 3 -> 1 = (if 3 mod 2 =? 0 then 3 - 1 else 3 - 2) /\ ~ Z.prime 1).
Proof. apply (prev_prime_result_odd cautious_root 5 3 1). reflexivity. Defined.

Lemma prev_prime_of_next_prime_witness :
  exists q,
    returns (fun fuel => next_prime cautious_root fuel 7) q /\
    returns (fun fuel => prev_prime cautious_root fuel q) 7.
Proof.
  apply (prev_prime_of_next_prime cautious_root cautious_root_spec 7 11);
    [apply exact_test_iff; reflexivity | lia | exact prime_11
    | split; [lia | apply lt_2_52; reflexivity]].
Defined.

Lemma next_prime_of_prev_prime_witness :
  exists p,
    returns (fun fuel => prev_prime cautious_root fuel 11) p /\
    returns (fun fuel => next_prime cautious_root fuel p) 11.
Proof.
  apply (next_prime_of_prev_prime cautious_root cautious_root_spec 11);
    [exact prime_11 | split; [lia | apply lt_2_52; reflexivity]].
Defined.

(** ** Target-digit constructor *)

(** What [is_prime] accepts over [cautious_root] is a prime. *)
Lemma cautious_is_prime_sound (p : Z) :
  is_prime cautious_root p = Ret true -> Z.prime p.
Proof.
  intros H. destruct (Z_lt_ge_dec p (2 ^ 52)) as [Hlt|Hge].
  - rewrite (is_prime_below cautious_root cautious_root_spec p Hlt) in H.
    inversion H as [E]. apply exact_test_iff. exact E.
  - exfalso. revert H. unfold is_prime, cautious_root.
    destruct (p <? 2); [discriminate|].
    destruct (Z.eqb_spec p 2) as [E|_].
    { exfalso. assert (2 < 2 ^ 52) by (apply Z.ltb_lt; reflexivity). lia. }
    destruct (p mod 2 =? 0); [discriminate|].
    destruct (Z.ltb_spec p 0) as [|_]; [destruct (- float_limit <? p); discriminate|].
    destruct (Z.ltb_spec p (2 ^ 52)) as [|_]; [lia | discriminate].
Qed.

Section Constructor.

Variable root : Z -> res Z.
Variable run : nat -> Z -> res Empty_set.

Lemma generate_semiprime_mono (fuel fuel' : nat) (d : Z) (t : triple) :
  (fuel <= fuel')%nat ->
  generate_semiprime root run fuel d = Ret t ->
  generate_semiprime root run fuel' d = Ret t.
Proof. apply generate_semiprime_refine. auto. Qed.

(** Neither adjustment loop assigns [p]. *)
Lemma shrink_body_p (fuel : nat) (st st' : gs_locals) :
  shrink_body root fuel st = Ret st' ->
  gs_p st' = gs_p st /\ gs_product st' = gs_p st' * gs_q st'.
Proof.
  unfold shrink_body. intros H. apply bind_ret in H. destruct H as (q & _ & H).
  inversion H; subst. simpl. auto.
Qed.

Lemma grow_body_p (fuel : nat) (st st' : gs_locals) :
  grow_body root fuel st = Ret st' ->
  gs_p st' = gs_p st /\ gs_product st' = gs_p st' * gs_q st'.
Proof.
  unfold grow_body. intros H. apply bind_ret in H. destruct H as (q & _ & H).
  inversion H; subst. simpl. auto.
Qed.

(** C8: whenever [generate_semiprime d] returns [(p, q, product)], its
    [p] is the value of [next_prime (10 ** (d // 2))] computed before the
    loops: an iteration of the shrink loop or of the grow loop leaves [p]
    as it was and only replaces [q] and [product] (kept equal to
    [p * q]). *)
Theorem generate_semiprime_keeps_p :
  forall (fuel : nat) (d p q n : Z),
    generate_semiprime root run fuel d = Ret (p, q, n) ->
    next_prime root fuel (10 ^ (d / 2)) = Ret p /\
    n = p * q /\
    (forall st st', shrink_body root fuel st = Ret st' -> gs_p st' = gs_p st) /\
    (forall st st', grow_body root fuel st = Ret st' -> gs_p st' = gs_p st).
Proof.
  intros fuel d p q n H. unfold generate_semiprime in H.
  destruct (d <? 0).
  { exfalso. exact (negative_digits_no_return run _ _ _ H). }
  apply bind_ret in H. destruct H as (p0 & Hp & H).
  apply bind_ret in H. destruct H as (qt & Hqt & H).
  apply bind_ret in H. destruct H as (q0 & Hq & H).
  apply bind_ret in H. destruct H as (st1 & Hst1 & H).
  apply bind_ret in H. destruct H as (st2 & Hst2 & H).
  pose (I := fun st => gs_p st = p0 /\ gs_product st = gs_p st * gs_q st).
  apply (test_inv _ _ I) in Hst1.
  - apply (test_inv _ _ I) in Hst2.
    + destruct Hst2 as [[Hp2 Hprod] _]. inversion H; subst.
      split; [exact Hp|]. split; [exact Hprod|].
      split; intros st st' Hb.
      * apply (shrink_body_p _ _ _ Hb).
      * apply (grow_body_p _ _ _ Hb).
    + intros s s' [Hs _] _ Hb. apply grow_body_p in Hb. destruct Hb as [E1 E2].
      split; [congruence | exact E2].
    + apply Hst1.
  - intros s s' [Hs _] _ Hb. apply shrink_body_p in Hb. destruct Hb as [E1 E2].
    split; [congruence | exact E2].
  - split; reflexivity.
Qed.

End Constructor.

Lemma generate_semiprime_keeps_p_witness :
  generate_semiprime cautious_root no_float_run 10 2 = Ret (11, 7, 77) /\
  next_prime cautious_root 10 (10 ^ (2 / 2)) = Ret 11.
Proof.
  split; [reflexivity|].
  apply (generate_semiprime_keeps_p cautious_root no_float_run 10 2 11 7 77).
  reflexivity.
Defined.

Lemma check_semiprime_sound (d : Z) :
  check_semiprime d = true ->
  exists p q n,
    generate_semiprime cautious_root no_float_run 200 d = Ret (p, q, n) /\
    Z.prime p /\ Z.prime q /\ p * q = n /\ len_str n = d.
Proof.
  unfold check_semiprime.
  destruct (generate_semiprime cautious_root no_float_run 200 d)
    as [[[p q] n]| |]; try discriminate.
  destruct (is_prime cautious_root p) as [[|]| |] eqn:Hp; try discriminate.
  destruct (is_prime cautious_root q) as [[|]| |] eqn:Hq; try discriminate.
  intros H. apply andb_true_iff in H. destruct H as [Hmul Hlen].
  exists p, q, n. split; [reflexivity|].
  split; [apply cautious_is_prime_sound; exact Hp|].
  split; [apply cautious_is_prime_sound; exact Hq|].
  split; [apply Z.eqb_eq; exact Hmul | apply Z.eqb_eq; exact Hlen].
Qed.

Lemma check_semiprime_2_15 : forallb check_semiprime (range 2 16 1) = true.
Proof. vm_compute. reflexivity. Qed.

(** C1: for every digit count [d] of [[2, 15]], [generate_semiprime d]
    returns a triple, and the triple [(p, q, product)] it returns has [p]
    prime, [q] prime, [p * q = product] and a product of exactly [d]
    decimal digits.  All the square roots taken are of numbers below
    [2 ** 52], so this holds for every function that meets [root_spec]. *)
Theorem generate_semiprime_correct :
  forall (root : Z -> res Z) (run : nat -> Z -> res Empty_set),
    root_spec root ->
    forall d : Z,
      2 <= d <= 15 ->
      (exists t, returns (fun fuel => generate_semiprime root run fuel d) t) /\
      (forall p q n,
         returns (fun fuel => generate_semiprime root run fuel d) (p, q, n) ->
         Z.prime p /\ Z.prime q /\ p * q = n /\ len_str n = d).
Proof.
  intros root run Hroot d Hd.
  assert (Hin : In d (range 2 16 1)) by (apply (all_range_In 15); exact Hd).
  pose proof check_semiprime_2_15 as Hall. rewrite forallb_forall in Hall.
  destruct (check_semiprime_sound d (Hall d Hin)) as (p & q & n & Hrun & Hprops).
  assert (Hrun' : generate_semiprime root run 200 d = Ret (p, q, n)).
  { apply (generate_semiprime_refine cautious_root root no_float_run run
             (fun n v => cautious_root_least root n v Hroot) 200 200);
      [apply Nat.le_refl | exact Hrun]. }
  split.
  - exists (p, q, n), 200%nat. exact Hrun'.
  - intros p' q' n' Hret.
    assert (E : (p', q', n') = (p, q, n)).
    { apply (returns_functional (fun fuel => generate_semiprime root run fuel d)).
      - intros fuel fuel' a Hle Ha. eapply generate_semiprime_mono; eauto.
      - exact Hret.
      - exists 200%nat. exact Hrun'. }
    inversion E; subst. exact Hprops.
Qed.

Lemma generate_semiprime_correct_witness :
  (exists t,
     returns (fun fuel => generate_semiprime cautious_root no_float_run fuel 8) t) /\
  (forall p q n,
     returns (fun fuel => generate_semiprime cautious_root no_float_run fuel 8)
       (p, q, n) ->
     Z.prime p /\ Z.prime q /\ p * q = n /\ len_str n = 8).
Proof.
  apply (generate_semiprime_correct cautious_root no_float_run cautious_root_spec 8).
  lia.
Defined.

(** ** Range enumerator *)

Lemma len_app {A : Type} (l : list A) (x : A) : len (l ++ [x]) = len l + 1.
Proof. unfold len. rewrite length_app. simpl. lia. Qed.

Lemma len_nonneg {A : Type} (l : list A) : 0 <= len l.
Proof. unfold len. lia. Qed.

(** One iteration of the inner loop: the triple is appended exactly when
    the test accepts it; [break] happens only after an append that fills
    the list; otherwise [q] moves to the next prime and [product] is
    recomputed. *)
Lemma inner_body_spec (root : Z -> res Z) (fuel : nat) (min_val max_val count p : Z)
    (st st' : inner_state) :
  inner_body root fuel min_val max_val count p st = Ret st' ->
  in_results st' =
    (if accepts min_val max_val (in_product st)
     then in_results st ++ [(p, in_q st, in_product st)]
     else in_results st) /\
  (in_break st' = true ->
     accepts min_val max_val (in_product st) = true /\
     count <= len (in_results st') /\
     in_q st' = in_q st /\ in_product st' = in_product st) /\
  (in_break st' = false ->
     (accepts min_val max_val (in_product st) = true ->
      len (in_results st') < count) /\
     next_prime root fuel (in_q st) = Ret (in_q st') /\
     in_product st' = p * in_q st').
Proof.
  unfold inner_body, accepts.
  destruct ((min_val <=? in_product st) && (in_product st <=? max_val)
            && (len_str (in_product st) =? len_str min_val)) eqn:Hacc.
  - destruct (Z.geb_spec (len (in_results st ++ [(p, in_q st, in_product st)])) count)
      as [Hfull|Hroom].
    + intros H. inversion H; subst; simpl.
      split; [reflexivity|].
      split; [intros _; repeat split; try reflexivity; lia|].
      discriminate.
    + intros H. apply bind_ret in H. destruct H as (q' & Hq & H).
      inversion H; subst; simpl.
      split; [reflexivity|]. split; [discriminate|].
      intros _. split; [intros _; lia|]. split; [exact Hq | reflexivity].
  - intros H. apply bind_ret in H. destruct H as (q' & Hq & H).
    inversion H; subst; simpl.
    split; [reflexivity|]. split; [discriminate|].
    intros _. split; [discriminate|]. split; [exact Hq | reflexivity].
Qed.

Lemma accepts_spec (min_val max_val product : Z) :
  accepts min_val max_val product = true <->
  min_val <= product <= max_val /\ len_str product = len_str min_val.
Proof.
  unfold accepts. rewrite !andb_true_iff, !Z.leb_le, Z.eqb_eq. tauto.
Qed.

(** *** Every triple is in range, and there are at most [count] of them *)

Section RangeSafety.

Variable root : Z -> res Z.
Variables (fuel : nat) (min_val max_val count : Z).

Definition inner_safe (p : Z) (st : inner_state) : Prop :=
  Forall (in_range_triple min_val max_val) (in_results st) /\
  in_product st = p * in_q st /\
  len (in_results st) <= count /\
  (in_break st = false -> len (in_results st) < count).

Lemma inner_safe_step (p : Z) (st st' : inner_state) :
  inner_safe p st -> inner_cond max_val st = true ->
  inner_body root fuel min_val max_val count p st = Ret st' ->
  inner_safe p st'.
Proof.
  intros (Hall & Hprod & Hle & Hlt) Hcond Hb.
  apply andb_true_iff in Hcond. destruct Hcond as [Hnb _].
  apply negb_true_iff in Hnb. specialize (Hlt Hnb).
  destruct (inner_body_spec _ _ _ _ _ _ _ _ Hb) as (Hres & Hbrk & Hcont).
  unfold inner_safe.
  destruct (accepts min_val max_val (in_product st)) eqn:Hacc.
  - rewrite Hres. split.
    + apply Forall_app. split; [exact Hall|]. constructor; [|constructor].
      apply accepts_spec in Hacc. simpl. split; [symmetry; exact Hprod | exact Hacc].
    + rewrite len_app.
      destruct (in_break st') eqn:Hb'.
      * destruct (Hbrk eq_refl) as (_ & _ & Eq & Ep).
        split; [congruence|]. split; [lia | discriminate].
      * destruct (Hcont eq_refl) as (Hroom & _ & Hp').
        specialize (Hroom eq_refl). rewrite Hres, len_app in Hroom.
        split; [exact Hp'|]. split; [lia | intros _; lia].
  - rewrite Hres. destruct (in_break st') eqn:Hb'.
    + destruct (Hbrk eq_refl) as [Habs _]. discriminate.
    + destruct (Hcont eq_refl) as (_ & _ & Hp').
      split; [exact Hall|]. split; [exact Hp'|]. split; [lia | intros _; lia].
Qed.

Definition outer_safe (st : outer_state) : Prop :=
  Forall (in_range_triple min_val max_val) (snd st) /\ len (snd st) <= count.

Lemma outer_safe_step (st st' : outer_state) :
  outer_safe st -> outer_cond max_val count st = true ->
  outer_body root fuel min_val max_val count st = Ret st' ->
  outer_safe st'.
Proof.
  intros [Hall Hle] Hcond Hb.
  apply andb_true_iff in Hcond. destruct Hcond as [Hlt _].
  apply Z.ltb_lt in Hlt.
  unfold outer_body in Hb.
  apply bind_ret in Hb. destruct Hb as (d & _ & Hb).
  apply bind_ret in Hb. destruct Hb as (q & _ & Hb).
  apply bind_ret in Hb. destruct Hb as (inner & Hinner & Hb).
  apply bind_ret in Hb. destruct Hb as (p' & _ & Hb).
  inversion Hb; subst st'. simpl.
  apply (test_inv _ _ (inner_safe (fst st))) in Hinner.
  - destruct Hinner as [(H1 & _ & H2 & _) _]. split; assumption.
  - intros s s'. apply inner_safe_step.
  - unfold inner_safe. simpl. repeat split; auto; lia.
Qed.

Lemma find_semiprimes_safe (results : list triple) :
  0 <= count ->
  find_semiprimes_in_range root fuel min_val max_val count = Ret results ->
  Forall (in_range_triple min_val max_val) results /\ len results <= count.
Proof.
  intros Hcount H. unfold find_semiprimes_in_range in H.
  apply bind_ret in H. destruct H as (r & _ & H).
  apply bind_ret in H. destruct H as (p & _ & H).
  apply bind_ret in H. destruct H as (st & Hst & H).
  inversion H; subst results.
  apply (test_inv _ _ outer_safe) in Hst.
  - apply Hst.
  - intros s s'. apply outer_safe_step.
  - split; [constructor | exact Hcount].
Qed.

End RangeSafety.

(** *** Order of the results *)

Lemma StronglySorted_snoc {A : Type} (R : A -> A -> Prop) (l : list A) (x : A) :
  StronglySorted R l -> Forall (fun y => R y x) l -> StronglySorted R (l ++ [x]).
Proof.
  induction 1 as [|a l Hl IH Ha]; intros Hx; simpl.
  - constructor; constructor.
  - inversion Hx; subst. constructor; [apply IH; assumption|].
    apply Forall_app. split; [exact Ha | constructor; [assumption | constructor]].
Qed.

Section RangeOrder.

Variable root : Z -> res Z.
Variables (fuel : nat) (min_val max_val count : Z).

Definition inner_sorted (p : Z) (st : inner_state) : Prop :=
  StronglySorted appended_before (in_results st) /\
  Forall (fun t => fst (fst t) <= p) (in_results st) /\
  (in_break st = false ->
   Forall (fun t => appended_before t (p, in_q st, in_product st))
          (in_results st)).

Lemma inner_sorted_step (p : Z) (st st' : inner_state) :
  inner_sorted p st -> inner_cond max_val st = true ->
  inner_body root fuel min_val max_val count p st = Ret st' ->
  inner_sorted p st'.
Proof.
  intros (Hsort & Hle & Hbefore) Hcond Hb.
  apply andb_true_iff in Hcond. destruct Hcond as [Hnb _].
  apply negb_true_iff in Hnb. specialize (Hbefore Hnb).
  destruct (inner_body_spec _ _ _ _ _ _ _ _ Hb) as (Hres & _ & Hcont).
  assert (Hsort' : StronglySorted appended_before (in_results st')).
  { rewrite Hres. destruct (accepts min_val max_val (in_product st)); [|exact Hsort].
    apply StronglySorted_snoc; assumption. }
  assert (Hle' : Forall (fun t => fst (fst t) <= p) (in_results st')).
  { rewrite Hres. destruct (accepts min_val max_val (in_product st)); [|exact Hle].
    apply Forall_app. split; [exact Hle|]. constructor; [simpl; lia | constructor]. }
  split; [exact Hsort'|]. split; [exact Hle'|].
  intros Hnb'. destruct (Hcont Hnb') as (_ & Hq & _).
  apply next_prime_sound in Hq. destruct Hq as (Hlt & _).
  assert (Hold : Forall (fun t => appended_before t (p, in_q st', in_product st'))
                        (in_results st)).
  { eapply Forall_impl; [|exact Hbefore].
    intros [[p1 q1] n1]. simpl. intros [H|[H1 H2]]; [left; exact H | right; lia]. }
  rewrite Hres. destruct (accepts min_val max_val (in_product st)); [|exact Hold].
  apply Forall_app. split; [exact Hold|].
  constructor; [simpl; right; lia | constructor].
Qed.

Definition outer_sorted (st : outer_state) : Prop :=
  StronglySorted appended_before (snd st) /\
  Forall (fun t => fst (fst t) < fst st) (snd st).

Lemma outer_sorted_step (st st' : outer_state) :
  outer_sorted st -> outer_cond max_val count st = true ->
  outer_body root fuel min_val max_val count st = Ret st' ->
  outer_sorted st'.
Proof.
  intros [Hsort Hlt] _ Hb. unfold outer_body in Hb.
  apply bind_ret in Hb. destruct Hb as (d & _ & Hb).
  apply bind_ret in Hb. destruct Hb as (q & _ & Hb).
  apply bind_ret in Hb. destruct Hb as (inner & Hinner & Hb).
  apply bind_ret in Hb. destruct Hb as (p' & Hp' & Hb).
  inversion Hb; subst st'. simpl.
  apply next_prime_sound in Hp'. destruct Hp' as (Hp' & _).
  apply (test_inv _ _ (inner_sorted (fst st))) in Hinner.
  - destruct Hinner as [(H1 & H2 & _) _]. split; [exact H1|].
    eapply Forall_impl; [|exact H2]. simpl. intros t Ht. lia.
  - intros s s'. apply inner_sorted_step.
  - unfold inner_sorted. simpl. split; [exact Hsort|]. split.
    + eapply Forall_impl; [|exact Hlt]. simpl. intros t Ht. lia.
    + intros _. eapply Forall_impl; [|exact Hlt].
      intros [[p1 q1] n1]. simpl. intros H. left. exact H.
Qed.

Lemma find_semiprimes_sorted (results : list triple) :
  find_semiprimes_in_range root fuel min_val max_val count = Ret results ->
  StronglySorted appended_before results.
Proof.
  intros H. unfold find_semiprimes_in_range in H.
  apply bind_ret in H. destruct H as (r & _ & H).
  apply bind_ret in H. destruct H as (p & _ & H).
  apply bind_ret in H. destruct H as (st & Hst & H).
  inversion H; subst results.
  apply (test_inv _ _ outer_sorted) in Hst.
  - apply Hst.
  - intros s s'. apply outer_sorted_step.
  - split; constructor.
Qed.

End RangeOrder.

(** C7: the list [find_semiprimes_in_range] returns is in the order of
    appending: any earlier triple has a smaller [p] than a later one, or
    the same [p] and a strictly smaller [q].  Equal products are not
    merged: on the range [[10, 99]] the product 35 is returned twice, as
    [5 * 7] and as [7 * 5]. *)
Theorem find_semiprimes_order :
  forall root : Z -> res Z,
    root_spec root ->
    (forall (fuel : nat) (min_val max_val count : Z) (results : list triple),
       find_semiprimes_in_range root fuel min_val max_val count = Ret results ->
       StronglySorted appended_before results) /\
    (exists results,
       find_semiprimes_in_range root 50 10 99 20 = Ret results /\
       In (5, 7, 35) results /\ In (7, 5, 35) results).
Proof.
  intros root Hroot. split.
  - intros fuel min_val max_val count results. apply find_semiprimes_sorted.
  - eexists. split.
    + apply (find_semiprimes_refine cautious_root root
               (fun n v => cautious_root_least root n v Hroot) 50 50);
        [apply Nat.le_refl | vm_compute; reflexivity].
    + simpl. split; tauto.
Qed.

Lemma find_semiprimes_order_witness :
  (forall (fuel : nat) (min_val max_val count : Z) (results : list triple),
     find_semiprimes_in_range cautious_root fuel min_val max_val count
     = Ret results ->
     StronglySorted appended_before results) /\
  (exists results,
     find_semiprimes_in_range cautious_root 50 10 99 20 = Ret results /\
     In (5, 7, 35) results /\ In (7, 5, 35) results).
Proof. apply (find_semiprimes_order cautious_root cautious_root_spec). Defined.

(** *** The enumeration returns *)

Section RangeTermination.

Variable root : Z -> res Z.
Hypothesis root_ok : root_spec root.

Variables (fuel : nat) (min_val max_val count P : Z).

Hypothesis P_prime : Z.prime P.
Hypothesis P_large : 2 < P /\ min_val < P /\ max_val < P.
Hypothesis P_exact : P < 2 ^ 52.
Hypothesis min_val_nonneg : 0 <= min_val.
Hypothesis enough_fuel : (Z.to_nat P < fuel)%nat.






End RangeTermination.





(** *** The outer loop *)

Lemma outer_cond_spec (max_val count : Z) (st : outer_state) :
  outer_cond max_val count st = true <->
  len (snd st) < count /\ fst st * fst st < max_val.
Proof.
  unfold outer_cond. rewrite andb_true_iff, !Z.ltb_lt. tauto.
Qed.

(** C6, as amended: in a call of [find_semiprimes_in_range] that returns,
    the outer loop starts with [p = next_prime r] and an empty list, where
    [r] is the value of [int(min_val ** 0.5)]: the integer square root
    [floor (sqrt min_val)] if [min_val < 2 ** 52], and what the rounding
    of the double-precision power gives beyond.  The body of the loop runs
    in exactly the states in which fewer than [count] results are
    collected and [p * p < max_val], and the loop is left in the first
    state in which this fails; the list of that state is what the call
    returns. *)
Theorem find_semiprimes_outer_loop :
  forall root : Z -> res Z,
    root_spec root ->
    forall (fuel : nat) (min_val max_val count : Z) (results : list triple),
      find_semiprimes_in_range root fuel min_val max_val count = Ret results ->
      exists (r p0 : Z) (visited : list outer_state) (final : outer_state),
        0 <= min_val /\
        root min_val = Ret r /\
        (min_val < 2 ^ 52 -> r = Z.sqrt min_val) /\
        next_prime root fuel r = Ret p0 /\
        loop_run (test (outer_cond max_val count))
                 (outer_body root fuel min_val max_val count)
                 (p0, []) visited final /\
        Forall (fun st => len (snd st) < count /\ fst st * fst st < max_val)
               visited /\
        ~ (len (snd final) < count /\ fst final * fst final < max_val) /\
        results = snd final.
Proof.
  intros root Hroot fuel min_val max_val count results H.
  unfold find_semiprimes_in_range in H.
  apply bind_ret in H. destruct H as (r & Hr & H).
  apply bind_ret in H. destruct H as (p0 & Hp0 & H).
  apply bind_ret in H. destruct H as (final & Hrun & H).
  inversion H; subst results.
  apply while_run in Hrun. destruct Hrun as (visited & Hrun & _).
  destruct (loop_run_cond _ _ _ _ _ Hrun) as [Hvisited Hfinal].
  destruct Hroot as (_ & _ & Hneg1 & Hneg2 & Hexact).
  assert (Hmin : 0 <= min_val).
  { destruct (Z_lt_ge_dec min_val 0) as [Hlt|]; [|lia]. exfalso.
    destruct (Z_le_gt_dec min_val (- float_limit)) as [Hle|Hgt].
    - rewrite (Hneg1 _ Hle) in Hr. discriminate.
    - rewrite (Hneg2 min_val) in Hr by lia. discriminate. }
  exists r, p0, visited, final.
  split; [exact Hmin|]. split; [exact Hr|]. split.
  { intros H52. rewrite Hexact in Hr by lia. inversion Hr. reflexivity. }
  split; [exact Hp0|]. split; [exact Hrun|].
  split.
  - eapply Forall_impl; [|exact Hvisited].
    intros st Hst. apply outer_cond_spec. apply test_ret in Hst. exact Hst.
  - split; [|reflexivity].
    intros Hc. apply outer_cond_spec in Hc. apply test_ret in Hfinal. congruence.
Qed.

Lemma find_semiprimes_outer_loop_witness :
  exists (r p0 : Z) (visited : list outer_state) (final : outer_state),
    0 <= 10 /\
    cautious_root 10 = Ret r /\
    (10 < 2 ^ 52 -> r = Z.sqrt 10) /\
    next_prime cautious_root 50 r = Ret p0 /\
    loop_run (test (outer_cond 99 3)) (outer_body cautious_root 50 10 99 3)
             (p0, []) visited final /\
    Forall (fun st => len (snd st) < 3 /\ fst st * fst st < 99) visited /\
    ~ (len (snd final) < 3 /\ fst final * fst final < 99) /\
    [(5, 3, 15); (5, 5, 25); (5, 7, 35)] = snd final.
Proof.
  apply (find_semiprimes_outer_loop cautious_root cautious_root_spec
           50 10 99 3 [(5, 3, 15); (5, 5, 25); (5, 7, 35)]).
  vm_compute. reflexivity.
Defined.

(** C6 as stated fails beyond [2 ** 52], where [int(min_val ** 0.5)] is
    not [floor (sqrt min_val)].  At [min_val = 4503601640636640], which is
    [67108879 ** 2 - 1], the integer square root is 67108878 and
    [next_prime] of it is 67108879, whose square 4503601640636641 lies in
    the range; rounded to the nearest double the root is 67108879, the
    first [p] is 67108913, whose square is beyond [max_val], and the call
    returns the empty list.  At [min_val = 10 ** 400] the power raises
    [OverflowError] for every function that meets [root_spec], and no [p]
    is considered at all. *)
Lemma find_semiprimes_first_p_rounded :
  root_spec nearest_root /\
  nearest_root 4503601640636640 = Ret 67108879 /\
  Z.sqrt 4503601640636640 = 67108878 /\
  next_prime nearest_root 40 67108879 = Ret 67108913 /\
  next_prime nearest_root 40 67108878 = Ret 67108879 /\
  find_semiprimes_in_range nearest_root 40
    4503601640636640 4503601640636642 3 = Ret [] /\
  67108879 * 67108879 = 4503601640636641 /\
  (forall root, root_spec root ->
     forall (fuel : nat) (max_val count : Z),
       find_semiprimes_in_range root fuel (10 ^ 400) max_val count
       = Raise OverflowError).
Proof.
  split; [exact nearest_root_spec|].
  split; [vm_compute; reflexivity|].
  split; [vm_compute; reflexivity|].
  split; [vm_compute; reflexivity|].
  split; [vm_compute; reflexivity|].
  split; [vm_compute; reflexivity|].
  split; [reflexivity|].
  intros root (_ & Hover & _) fuel max_val count.
  unfold find_semiprimes_in_range. rewrite Hover; [reflexivity|].
  apply Z.leb_le. vm_compute. reflexivity.
Qed.

(** ** The report *)









(** A decimal numeral starts with a digit or a minus sign. *)
Lemma str_head (n : Z) :
  exists c rest, str n = String c rest /\ c <> "E"%char.
Proof.
  unfold str. destruct n as [|p|p]; simpl.
  - eexists _, _. split; [reflexivity | discriminate].
  - destruct (Pos.to_uint p); simpl;
      (eexists _, _; split; [reflexivity | discriminate]).
  - eexists _, _. split; [reflexivity | discriminate].
Qed.






(** The shipped table: the baseline entry itself fails the validation,
    since [6917 * 6923 = 47886391]. *)
Example baseline_entry_is_error :
  is_error_line (entry_line 8 (6917, 6923, 47893197)) = true /\
  6917 * 6923 = 47886391.
Proof. split; reflexivity. Qed.

(** ** Digit counts outside the domain *)

Lemma len_str_pos (n : Z) : 1 <= len_str n.
Proof.
  unfold len_str. destruct (str_head n) as (c & rest & Hn & _).
  rewrite Hn. simpl String.length. lia.
Qed.


Section OutsideDomain.

Variable root : Z -> res Z.
Variable run : nat -> Z -> res Empty_set.

(** For [target_digits <= 0] the call returns nothing: a negative count
    leaves the integers, and for 0 the shrink loop cannot be left, since a
    length is at least 1. *)
Lemma generate_semiprime_nonpositive (fuel : nat) (d : Z) (t : triple) :
  d <= 0 -> generate_semiprime root run fuel d <> Ret t.
Proof.
  intros Hd H. unfold generate_semiprime in H.
  destruct (d <? 0).
  { exact (negative_digits_no_return run _ _ _ H). }
  apply bind_ret in H. destruct H as (p & _ & H).
  apply bind_ret in H. destruct H as (qt & _ & H).
  apply bind_ret in H. destruct H as (q & _ & H).
  apply bind_ret in H. destruct H as (st & Hst & _).
  revert Hst. apply while_forever.
  intros s b Hb. apply test_ret in Hb. subst b.
  unfold shrink_cond. apply Z.gtb_lt.
  pose proof (len_str_pos (gs_product s)). lia.
Qed.


Hypothesis root_ok : root_spec root.


(** Whatever the digit count, a triple [(p, q, product)] the call returns
    has [product = p * q] with at least [target_digits] digits, [p] an odd
    number above [10 ** (target_digits // 2)] that [is_prime] accepts (a
    prime if below [2 ** 52]) and [q] odd; so the product is odd, and the
    digit count was at least 1. *)
Theorem generate_semiprime_returns_shape :
  forall (fuel : nat) (d p q n : Z),
    generate_semiprime root run fuel d = Ret (p, q, n) ->
    n = p * q /\ d <= len_str n /\ 1 <= d /\
    is_prime root p = Ret true /\ (p < 2 ^ 52 -> Z.prime p) /\
    Z.odd p = true /\ 10 ^ (d / 2) < p /\
    Z.odd q = true /\ Z.odd n = true.
Proof.
  intros fuel d p q n H.
  assert (Hd : 1 <= d).
  { destruct (Z_le_gt_dec d 0) as [Hle|]; [|lia].
    exfalso. apply (generate_semiprime_nonpositive fuel d _ Hle H). }
  unfold generate_semiprime in H.
  destruct (Z.ltb_spec d 0) as [|_]; [lia|].
  apply bind_ret in H. destruct H as (p0 & Hp & H).
  apply bind_ret in H. destruct H as (qt & Hqt & H).
  apply bind_ret in H. destruct H as (q0 & Hq & H).
  apply bind_ret in H. destruct H as (st1 & Hst1 & H).
  apply bind_ret in H. destruct H as (st2 & Hst2 & H).
  pose proof (next_prime_prime root root_ok _ _ _ Hp) as Hprime.
  apply next_prime_sound in Hp. destruct Hp as (Hplt & Hpo & Hpp & _).
  apply next_prime_sound in Hq. destruct Hq as (_ & Hqo & _).
  pose (I := fun st => gs_p st = p0 /\ gs_product st = gs_p st * gs_q st /\
                       Z.odd (gs_q st) = true).
  apply (test_inv _ _ I) in Hst1.
  - apply (test_inv _ _ I) in Hst2.
    + destruct Hst2 as [(Hp2 & Hprod & Hqo2) Hex]. inversion H; subst.
      unfold grow_cond in Hex. apply Z.ltb_ge in Hex.
      split; [exact Hprod|]. split; [exact Hex|]. split; [exact Hd|].
      split; [exact Hpp|]. split; [exact Hprime|].
      split; [exact Hpo|]. split; [exact Hplt|].
      split; [exact Hqo2|]. rewrite Hprod, Z.odd_mul, Hpo, Hqo2. reflexivity.
    + intros s s' (Hs & _ & _) _ Hb. unfold grow_body in Hb.
      apply bind_ret in Hb. destruct Hb as (q' & Hq' & Hb).
      apply next_prime_sound in Hq'. destruct Hq' as (_ & Ho & _).
      inversion Hb; subst s'. unfold I. simpl. auto.
    + apply Hst1.
  - intros s s' (Hs & _ & _) _ Hb. unfold shrink_body in Hb.
    apply bind_ret in Hb. destruct Hb as (q' & Hq' & Hb).
    apply prev_prime_odd in Hq'. destruct Hq' as (Ho & _).
    inversion Hb; subst s'. unfold I. simpl. auto.
  - unfold I. simpl. auto.
Qed.

End OutsideDomain.


Lemma generate_semiprime_returns_shape_witness :
  99799811 = 10007 * 9973 /\ 8 <= len_str 99799811 /\ 1 <= 8 /\
  is_prime cautious_root 10007 = Ret true /\ (10007 < 2 ^ 52 -> Z.prime 10007) /\
  Z.odd 10007 = true /\ 10 ^ (8 / 2) < 10007 /\
  Z.odd 9973 = true /\ Z.odd 99799811 = true.
Proof.
  apply (generate_semiprime_returns_shape cautious_root no_float_run
           cautious_root_spec 100 8 10007 9973 99799811).
  vm_compute. reflexivity.
Defined.

(** ** Range enumerator: what is returned *)

(** The start of a call that returns: the root is taken of a non-negative
    [min_val], and the outer loop runs from the next prime above it. *)
Lemma find_semiprimes_start (root : Z -> res Z) (fuel : nat)
    (min_val max_val count : Z) (results : list triple) :
  root_spec root ->
  find_semiprimes_in_range root fuel min_val max_val count = Ret results ->
  exists (r p0 : Z) (final : outer_state),
    0 <= min_val /\ root min_val = Ret r /\
    (min_val < 2 ^ 52 -> r = Z.sqrt min_val) /\
    next_prime root fuel r = Ret p0 /\
    while fuel (test (outer_cond max_val count))
          (outer_body root fuel min_val max_val count) (p0, []) = Ret final /\
    results = snd final.
Proof.
  intros (_ & _ & Hneg1 & Hneg2 & Hexact) H.
  unfold find_semiprimes_in_range in H.
  apply bind_ret in H. destruct H as (r & Hr & H).
  apply bind_ret in H. destruct H as (p0 & Hp0 & H).
  apply bind_ret in H. destruct H as (final & Hrun & H).
  inversion H; subst results.
  assert (Hmin : 0 <= min_val).
  { destruct (Z_lt_ge_dec min_val 0) as [Hlt|]; [|lia]. exfalso.
    destruct (Z_le_gt_dec min_val (- float_limit)) as [Hle|Hgt].
    - rewrite (Hneg1 _ Hle) in Hr. discriminate.
    - rewrite (Hneg2 min_val) in Hr by lia. discriminate. }
  exists r, p0, final.
  split; [exact Hmin|]. split; [exact Hr|]. split; [|auto].
  intros H52. rewrite Hexact in Hr by lia. inversion Hr. reflexivity.
Qed.

Lemma above_quotient (a p q : Z) : 0 < p -> a / p < q <-> a < p * q.
Proof.
  intros Hp. pose proof (Z.div_mod a p ltac:(lia)) as E.
  pose proof (Z.mod_pos_bound a p Hp) as B.
  split; intros H; nia.
Qed.

Section RangeFactors.

Variable root : Z -> res Z.
Variables (fuel : nat) (min_val max_val count lo : Z).

(** The factors of a returned triple: odd numbers from 3 on that
    [is_prime] accepts, the first of them above [lo]. *)
Definition odd_factors (t : triple) : Prop :=
  let '(p, q, product) := t in
  Z.odd p = true /\ is_prime root p = Ret true /\
  Z.odd q = true /\ is_prime root q = Ret true /\
  product = p * q /\ min_val < product /\
  lo < p /\ p * p < max_val.

Definition inner_factors (p : Z) (st : inner_state) : Prop :=
  Forall odd_factors (in_results st) /\
  in_product st = p * in_q st /\
  is_prime root (in_q st) = Ret true /\ Z.odd (in_q st) = true /\
  min_val / p < in_q st.

Lemma inner_factors_step (p : Z) (st st' : inner_state) :
  is_prime root p = Ret true -> Z.odd p = true -> 3 <= p ->
  lo < p -> p * p < max_val ->
  inner_factors p st -> inner_cond max_val st = true ->
  inner_body root fuel min_val max_val count p st = Ret st' ->
  inner_factors p st'.
Proof.
  intros Hp Hpo Hp3 Hps Hpm (Hall & Hprod & Hq & Hqo & Hqlt) _ Hb.
  destruct (inner_body_spec _ _ _ _ _ _ _ _ Hb) as (Hres & Hbrk & Hcont).
  assert (Hall' : Forall odd_factors (in_results st')).
  { rewrite Hres. destruct (accepts min_val max_val (in_product st)); [|exact Hall].
    apply Forall_app. split; [exact Hall|]. constructor; [|constructor].
    simpl. repeat (split; [assumption|]). split; [|split; assumption].
    rewrite Hprod. apply above_quotient; [lia | assumption]. }
  unfold inner_factors. split; [exact Hall'|].
  destruct (in_break st') eqn:Hb'.
  - destruct (Hbrk eq_refl) as (_ & _ & Eq & Ep). rewrite Eq, Ep. auto.
  - destruct (Hcont eq_refl) as (_ & Hq' & Hp').
    apply next_prime_sound in Hq'. destruct Hq' as (Hq1 & Hq2 & Hq3 & _).
    split; [exact Hp'|]. split; [exact Hq3|]. split; [exact Hq2 | lia].
Qed.

Definition outer_factors (st : outer_state) : Prop :=
  Forall odd_factors (snd st) /\
  is_prime root (fst st) = Ret true /\ Z.odd (fst st) = true /\
  3 <= fst st /\ lo < fst st.

Lemma outer_factors_step (st st' : outer_state) :
  outer_factors st -> outer_cond max_val count st = true ->
  outer_body root fuel min_val max_val count st = Ret st' ->
  outer_factors st'.
Proof.
  intros (Hall & Hp & Hpo & Hp3 & Hps) Hcond Hb.
  apply outer_cond_spec in Hcond. destruct Hcond as [_ Hpm].
  unfold outer_body, floordiv in Hb.
  destruct (Z.eqb_spec (fst st) 0) as [|_]; [lia|]. simpl in Hb.
  apply bind_ret in Hb. destruct Hb as (q & Hq & Hb).
  apply bind_ret in Hb. destruct Hb as (inner & Hinner & Hb).
  apply bind_ret in Hb. destruct Hb as (p' & Hp' & Hb).
  inversion Hb; subst st'. simpl.
  apply next_prime_sound in Hq. destruct Hq as (Hq1 & Hq2 & Hq3 & _).
  apply next_prime_sound in Hp'. destruct Hp' as (Hp1 & Hp2 & Hp3' & Hp4).
  apply (test_inv _ _ (inner_factors (fst st))) in Hinner.
  - destruct Hinner as [(H1 & _) _]. unfold outer_factors. simpl.
    split; [exact H1|]. split; [exact Hp3'|]. split; [exact Hp2|].
    split; [exact Hp4 | lia].
  - intros s s'. apply inner_factors_step; assumption.
  - unfold inner_factors. simpl. auto.
Qed.

Lemma outer_factors_run (p0 : Z) (final : outer_state) :
  next_prime root fuel lo = Ret p0 ->
  while fuel (test (outer_cond max_val count))
        (outer_body root fuel min_val max_val count) (p0, []) = Ret final ->
  Forall odd_factors (snd final).
Proof.
  intros Hp Hst.
  apply next_prime_sound in Hp. destruct Hp as (Hp1 & Hp2 & Hp3 & Hp4).
  apply (test_inv _ _ outer_factors) in Hst.
  - apply Hst.
  - intros s s'. apply outer_factors_step.
  - unfold outer_factors. simpl. auto.
Qed.

End RangeFactors.

(** The triples of a call that returns, with [r] the value of
    [int(min_val ** 0.5)]. *)
Lemma find_semiprimes_factors (root : Z -> res Z) (fuel : nat)
    (min_val max_val count : Z) (results : list triple) :
  find_semiprimes_in_range root fuel min_val max_val count = Ret results ->
  exists r, root min_val = Ret r /\
            Forall (odd_factors root min_val max_val r) results.
Proof.
  intros H. unfold find_semiprimes_in_range in H.
  apply bind_ret in H. destruct H as (r & Hr & H).
  apply bind_ret in H. destruct H as (p0 & Hp0 & H).
  apply bind_ret in H. destruct H as (final & Hrun & H).
  inversion H; subst results.
  exists r. split; [exact Hr|].
  apply (outer_factors_run root fuel min_val max_val count r p0 final Hp0 Hrun).
Qed.

Section RangeReturned.

Variable root : Z -> res Z.
Hypothesis root_ok : root_spec root.

Lemma accepted_prime (p : Z) : is_prime root p = Ret true -> p < 2 ^ 52 -> Z.prime p.
Proof.
  intros H Hp. rewrite (is_prime_below root root_ok p Hp) in H.
  inversion H as [E]. apply exact_test_iff. exact E.
Qed.

(** Every triple [(p, q, product)] the range enumerator returns has odd
    factors that [is_prime] accepts (2 is never a factor), which are
    primes where they are below [2 ** 52]; [product = p * q], [p * p] is
    below [max_val], and the product is strictly above [min_val], so
    [min_val] itself is never returned.  For [min_val < 2 ** 52], [p] is
    above [floor (sqrt min_val)]. *)
Theorem find_semiprimes_odd_semiprimes :
  forall (fuel : nat) (min_val max_val count : Z) (results : list triple),
    find_semiprimes_in_range root fuel min_val max_val count = Ret results ->
    forall p q product, In (p, q, product) results ->
      Z.odd p = true /\ is_prime root p = Ret true /\
      Z.odd q = true /\ is_prime root q = Ret true /\
      product = p * q /\ min_val < product /\ p * p < max_val /\
      (p < 2 ^ 52 -> Z.prime p) /\ (q < 2 ^ 52 -> Z.prime q) /\
      (min_val < 2 ^ 52 -> Z.sqrt min_val < p).
Proof.
  intros fuel min_val max_val count results H p q product Hin.
  destruct (find_semiprimes_factors _ _ _ _ _ _ H) as (r & Hr & Hall).
  rewrite Forall_forall in Hall. specialize (Hall _ Hin). simpl in Hall.
  destruct Hall as (H1 & H2 & H3 & H4 & H5 & H6 & H7 & H8).
  repeat (split; [assumption|]).
  split; [apply accepted_prime; exact H2|].
  split; [apply accepted_prime; exact H4|].
  intros H52. destruct root_ok as (_ & _ & _ & _ & Hexact).
  assert (H0 : 0 <= min_val).
  { destruct (Z_lt_ge_dec min_val 0) as [Hneg|]; [|lia]. exfalso.
    destruct root_ok as (_ & _ & Hneg1 & Hneg2 & _).
    destruct (Z_le_gt_dec min_val (- float_limit)) as [Hle|Hgt].
    - rewrite (Hneg1 _ Hle) in Hr. discriminate.
    - rewrite (Hneg2 min_val) in Hr by lia. discriminate. }
  rewrite Hexact in Hr by lia. inversion Hr; subst r. exact H7.
Qed.

End RangeReturned.

Lemma find_semiprimes_odd_semiprimes_witness :
  Z.odd 7 = true /\ is_prime cautious_root 7 = Ret true /\
  Z.odd 5 = true /\ is_prime cautious_root 5 = Ret true /\
  35 = 7 * 5 /\ 10 < 35 /\ 7 * 7 < 99 /\
  (7 < 2 ^ 52 -> Z.prime 7) /\ (5 < 2 ^ 52 -> Z.prime 5) /\
  (10 < 2 ^ 52 -> Z.sqrt 10 < 7).
Proof.
  apply (find_semiprimes_odd_semiprimes cautious_root cautious_root_spec
           50 10 99 20
           [(5, 3, 15); (5, 5, 25); (5, 7, 35); (5, 11, 55); (5, 13, 65);
            (5, 17, 85); (5, 19, 95); (7, 3, 21); (7, 5, 35); (7, 7, 49);
            (7, 11, 77); (7, 13, 91)]).
  - vm_compute. reflexivity.
  - simpl. tauto.
Defined.

(** ** Range enumerator: what is found *)

Section RangeComplete.

Variable root : Z -> res Z.
Hypothesis root_ok : root_spec root.

Variables (fuel : nat) (min_val max_val count : Z).

Hypothesis max_exact : max_val <= 2 ^ 52.

(** A pair of odd primes the enumeration is after. *)
Definition wanted (p q : Z) : Prop :=
  Z.prime p /\ Z.odd p = true /\ Z.prime q /\ Z.odd q = true /\
  Z.sqrt min_val < p /\ min_val < p * q /\
  accepts min_val max_val (p * q) = true.

(** The factors of a wanted pair are below [2 ** 52]. *)
Lemma wanted_exact (p q : Z) : wanted p q -> p < 2 ^ 52 /\ q < 2 ^ 52.
Proof.
  intros ([Hp _] & _ & [Hq _] & _ & _ & _ & Hacc).
  apply accepts_spec in Hacc. destruct Hacc as [[_ Hle] _].
  revert max_exact Hle. generalize (2 ^ 52). intros B HB Hle. nia.
Qed.

(** All wanted pairs before the position [(p, q)] are in the list. *)
Definition covered (results : list triple) (p q : Z) : Prop :=
  forall p' q', wanted p' q' ->
    p' < p \/ (p' = p /\ q' < q) -> In (p', q', p' * q') results.

Definition inner_complete (p : Z) (st : inner_state) : Prop :=
  in_product st = p * in_q st /\
  (count <= len (in_results st) \/
   (in_break st = false /\ covered (in_results st) p (in_q st))).

Lemma inner_complete_step (p : Z) (st st' : inner_state) :
  inner_complete p st -> inner_cond max_val st = true ->
  inner_body root fuel min_val max_val count p st = Ret st' ->
  inner_complete p st'.
Proof.
  intros (Hprod & Hcov) _ Hb.
  destruct (inner_body_spec _ _ _ _ _ _ _ _ Hb) as (Hres & Hbrk & Hcont).
  assert (Hgrow : forall t, In t (in_results st) -> In t (in_results st')).
  { intros t Ht. rewrite Hres.
    destruct (accepts min_val max_val (in_product st)); [|exact Ht].
    apply in_or_app. left. exact Ht. }
  assert (Hlen : len (in_results st) <= len (in_results st')).
  { rewrite Hres. destruct (accepts min_val max_val (in_product st)); [|lia].
    rewrite len_app. lia. }
  unfold inner_complete.
  destruct (in_break st') eqn:Hb'.
  - destruct (Hbrk eq_refl) as (_ & Hfull & Eq & Ep).
    split; [congruence | left; exact Hfull].
  - destruct (Hcont eq_refl) as (_ & Hq' & Hp').
    split; [exact Hp'|].
    destruct Hcov as [Hfull|[_ Hcov]]; [left; lia|].
    right. split; [reflexivity|].
    intros p1 q1 Hw Hpos.
    destruct (Z_lt_ge_dec q1 (in_q st)) as [Hlt|Hge].
    { apply Hgrow, Hcov; [exact Hw | lia]. }
    destruct Hpos as [Hpos|[-> Hpos]]; [apply Hgrow, Hcov; [exact Hw | lia]|].
    destruct (wanted_exact _ _ Hw) as [_ Hq52].
    destruct Hw as (_ & _ & Hq1 & Hq1o & _ & _ & Hacc).
    assert (q1 = in_q st).
    { destruct (Z.eq_dec q1 (in_q st)) as [|Hne]; [assumption|]. exfalso.
      apply (next_prime_least_odd root root_ok _ _ _ Hq' q1);
        [lia | exact Hq52 | exact Hq1o | exact Hq1]. }
    subst q1. rewrite <- Hprod in *. rewrite Hres, Hacc.
    apply in_or_app. right. simpl. auto.
Qed.

Definition outer_complete (st : outer_state) : Prop :=
  3 <= fst st /\
  (count <= len (snd st) \/
   forall p' q', wanted p' q' -> p' < fst st -> In (p', q', p' * q') (snd st)).

Lemma outer_complete_step (st st' : outer_state) :
  outer_complete st -> outer_cond max_val count st = true ->
  outer_body root fuel min_val max_val count st = Ret st' ->
  outer_complete st'.
Proof.
  intros (Hp & Hcov) _ Hb.
  assert (Hp0 : 0 < fst st) by lia.
  unfold outer_body, floordiv in Hb.
  destruct (Z.eqb_spec (fst st) 0) as [|_]; [lia|]. simpl in Hb.
  apply bind_ret in Hb. destruct Hb as (q & Hq & Hb).
  apply bind_ret in Hb. destruct Hb as (inner & Hinner & Hb).
  apply bind_ret in Hb. destruct Hb as (p' & Hp' & Hb).
  inversion Hb; subst st'. unfold outer_complete. simpl.
  destruct (next_prime_sound root _ _ _ Hp') as (Hp1 & _ & _ & Hp2).
  split; [exact Hp2|].
  apply (test_inv _ _ (inner_complete (fst st))) in Hinner.
  - destruct Hinner as [(Hprod & Hc) Hex].
    destruct Hc as [Hfull|[Hnb Hc]]; [left; exact Hfull|].
    right. intros p1 q1 Hw Hlt.
    apply andb_false_iff in Hex. rewrite Hnb in Hex.
    destruct Hex as [Hex|Hex]; [discriminate|]. apply Z.leb_gt in Hex.
    destruct (Z_lt_ge_dec p1 (fst st)) as [Hlt'|Hge].
    { apply Hc; [exact Hw | left; exact Hlt']. }
    assert (p1 = fst st).
    { destruct (Z.eq_dec p1 (fst st)) as [|Hne]; [assumption|]. exfalso.
      destruct (wanted_exact _ _ Hw) as [Hp52 _].
      destruct Hw as (Hw1 & Hw2 & _).
      apply (next_prime_least_odd root root_ok _ _ _ Hp' p1);
        [lia | exact Hp52 | exact Hw2 | exact Hw1]. }
    subst p1. apply Hc; [exact Hw|]. right. split; [reflexivity|].
    destruct Hw as (_ & _ & _ & _ & _ & _ & Hacc).
    apply accepts_spec in Hacc. nia.
  - intros s s'. apply inner_complete_step.
  - unfold inner_complete. simpl. split; [reflexivity|].
    destruct Hcov as [Hfull|Hcov]; [left; exact Hfull|].
    right. split; [reflexivity|].
    intros p1 q1 Hw [Hlt|[-> Hlt]]; [apply Hcov; assumption|].
    exfalso. destruct (wanted_exact _ _ Hw) as [_ Hq52].
    destruct Hw as (_ & _ & Hq1 & Hq1o & _ & Hmin & _).
    apply (next_prime_least_odd root root_ok _ _ _ Hq q1);
      [|exact Hq52 | exact Hq1o | exact Hq1].
    split; [|exact Hlt]. apply above_quotient; assumption.
Qed.

Lemma find_semiprimes_covered (results : list triple) :
  find_semiprimes_in_range root fuel min_val max_val count = Ret results ->
  len results < count ->
  forall p q, wanted p q -> p * p < max_val -> In (p, q, p * q) results.
Proof.
  intros H Hlen p q Hw Hsq.
  destruct (find_semiprimes_start _ _ _ _ _ _ root_ok H)
    as (r & p0 & final & Hmin & Hr & Hexact & Hp0 & Hst & ->).
  assert (Hmin52 : min_val < 2 ^ 52).
  { pose proof Hw as (_ & _ & _ & _ & _ & Hlo & Hacc).
    apply accepts_spec in Hacc. lia. }
  specialize (Hexact Hmin52). subst r.
  destruct (next_prime_sound root _ _ _ Hp0) as (_ & _ & _ & Hp3).
  apply (test_inv _ _ outer_complete) in Hst.
  - destruct Hst as [(Hpf & Hc) Hex]. unfold outer_cond in Hex.
    destruct Hc as [Hfull|Hc]; [lia|].
    apply Hc; [exact Hw|].
    apply andb_false_iff in Hex. destruct Hex as [Hex|Hex].
    + apply Z.ltb_ge in Hex. lia.
    + apply Z.ltb_ge in Hex.
      destruct Hw as ([Hw _] & _). nia.
  - intros s s'. apply outer_complete_step.
  - split; [exact Hp3|]. right. intros p1 q1 Hw1 Hlt. simpl in Hlt. exfalso.
    destruct (wanted_exact _ _ Hw1) as [Hp52 _].
    destruct Hw1 as (Hw1 & Hw2 & _ & _ & Hs & _).
    apply (next_prime_least_odd root root_ok _ _ _ Hp0 p1);
      [lia | exact Hp52 | exact Hw2 | exact Hw1].
Qed.

End RangeComplete.

(** When the range enumerator, with [max_val <= 2 ** 52], returns fewer
    than [count] triples, it has missed no pair of odd primes in its
    search space: every [(p, q)] with [p], [q] odd primes,
    [floor (sqrt min_val) < p], [p * p < max_val],
    [min_val < p * q <= max_val] and a product with as many digits as
    [min_val] is in the list. *)
Theorem find_semiprimes_complete :
  forall root : Z -> res Z,
    root_spec root ->
    forall (fuel : nat) (min_val max_val count : Z) (results : list triple),
      max_val <= 2 ^ 52 ->
      find_semiprimes_in_range root fuel min_val max_val count = Ret results ->
      len results < count ->
      forall p q,
        Z.prime p -> Z.odd p = true -> Z.prime q -> Z.odd q = true ->
        Z.sqrt min_val < p -> p * p < max_val ->
        min_val < p * q <= max_val -> len_str (p * q) = len_str min_val ->
        In (p, q, p * q) results.
Proof.
  intros root Hroot fuel min_val max_val count results Hmax H Hlen
         p q Hp Hpo Hq Hqo Hs Hsq Hr Hd.
  apply (find_semiprimes_covered root Hroot fuel min_val max_val count Hmax
           results H Hlen); [|exact Hsq].
  unfold wanted. repeat (split; [assumption|]). split; [lia|].
  apply accepts_spec. split; [lia | exact Hd].
Qed.

Lemma find_semiprimes_complete_witness :
  In (7, 11, 7 * 11)
     [(5, 3, 15); (5, 5, 25); (5, 7, 35); (5, 11, 55); (5, 13, 65);
      (5, 17, 85); (5, 19, 95); (7, 3, 21); (7, 5, 35); (7, 7, 49);
      (7, 11, 77); (7, 13, 91)].
Proof.
  apply (find_semiprimes_complete cautious_root cautious_root_spec 50 10 99 20);
    try reflexivity; try lia.
  - apply exact_test_iff. reflexivity.
  - exact prime_11.
Defined.

(** ** Range enumerator: repetitions and empty results *)

Lemma appended_before_irrefl (t1 t2 : triple) :
  appended_before t1 t2 -> fst t1 <> fst t2.
Proof.
  destruct t1 as [[p1 q1] n1], t2 as [[p2 q2] n2]. simpl.
  intros [H|[H1 H2]] E; inversion E; lia.
Qed.

Lemma sorted_pairs_NoDup (l : list triple) :
  StronglySorted appended_before l -> NoDup (map fst l).
Proof.
  induction 1 as [|t l Hl IH Ht]; simpl; constructor; [|exact IH].
  intros Hin. apply in_map_iff in Hin. destruct Hin as (t' & E & Hin').
  rewrite Forall_forall in Ht. specialize (Ht t' Hin').
  apply appended_before_irrefl in Ht. congruence.
Qed.

(** No pair [(p, q)] is returned twice: equal products in the list always
    come from different factor pairs. *)
Theorem find_semiprimes_no_repeated_pair :
  forall (root : Z -> res Z) (fuel : nat) (min_val max_val count : Z)
         (results : list triple),
    find_semiprimes_in_range root fuel min_val max_val count = Ret results ->
    NoDup (map fst results).
Proof.
  intros root fuel min_val max_val count results H.
  apply sorted_pairs_NoDup. eapply find_semiprimes_sorted. exact H.
Qed.

Lemma find_semiprimes_no_repeated_pair_witness :
  NoDup (map fst [(5, 3, 15); (5, 5, 25); (5, 7, 35)]).
Proof.
  apply (find_semiprimes_no_repeated_pair cautious_root 50 10 99 3).
  vm_compute. reflexivity.
Defined.

Lemma prime_67108879 : Z.prime 67108879.
Proof. apply exact_test_iff. vm_compute. reflexivity. Qed.

(** With [count <= 0], or with [max_val <= 9], the outer loop never runs
    and the empty list is returned, for [0 <= min_val < 2 ** 52]: the
    first [p] is at least 3, so [p * p < max_val] already fails.  In
    particular [9 = 3 * 3] is not found in [[1, 9]]. *)
Theorem find_semiprimes_empty :
  forall root : Z -> res Z,
    root_spec root ->
    forall min_val max_val count : Z,
      0 <= min_val < 2 ^ 52 -> count <= 0 \/ max_val <= 9 ->
      returns (fun fuel => find_semiprimes_in_range root fuel min_val max_val count)
              [].
Proof.
  intros root Hroot min_val max_val count Hmin Hedge.
  assert (Hs : Z.sqrt min_val < 67108879).
  { apply Z.sqrt_lt_square; [lia | lia |].
    assert (2 ^ 52 < 67108879 * 67108879) by (apply Z.ltb_lt; reflexivity). lia. }
  assert (H52 : 67108879 < 2 ^ 52) by (apply Z.ltb_lt; reflexivity).
  destruct (next_prime_bounded root Hroot 67108879 (Z.sqrt min_val)
              (Z.to_nat (67108879 - Z.sqrt min_val)))
    as (p & Hp & _); [exact prime_67108879 | lia | exact Hs | lia |].
  set (fuel := Z.to_nat (67108879 - Z.sqrt min_val)) in *.
  assert (Hp' : next_prime root (S fuel) (Z.sqrt min_val) = Ret p).
  { apply (next_prime_mono root fuel (S fuel)); [lia | exact Hp]. }
  exists (S fuel). unfold find_semiprimes_in_range.
  destruct Hroot as (_ & _ & _ & _ & Hexact).
  rewrite Hexact by lia. cbn [bind].
  rewrite Hp'. cbn [bind while].
  destruct (next_prime_sound root _ _ _ Hp) as (_ & _ & _ & Hp3).
  assert (Hc : outer_cond max_val count (p, []) = false).
  { unfold outer_cond. simpl. apply andb_false_iff.
    destruct Hedge as [Hcount|Hmax].
    - left. apply Z.ltb_ge. unfold len. simpl. lia.
    - right. apply Z.ltb_ge. nia. }
  unfold test. rewrite Hc. reflexivity.
Qed.

Lemma find_semiprimes_empty_witness :
  returns (fun fuel => find_semiprimes_in_range cautious_root fuel 1 9 3) [].
Proof.
  apply (find_semiprimes_empty cautious_root cautious_root_spec 1 9 3);
    [split; [lia | apply lt_2_52; reflexivity] | lia].
Defined.

(** ** The report on the shipped table *)


(** ** The digit test *)

From Stdlib Require DecimalFacts DecimalPos.

Lemma string_of_uint_length (u : Decimal.uint) :
  String.length (NilEmpty.string_of_uint u) = Decimal.nb_digits u.
Proof. induction u; simpl; congruence. Qed.

Lemma of_uint_acc_bounds (l : Decimal.uint) :
  forall acc : positive,
    Z.pos acc * 10 ^ Z.of_nat (Decimal.nb_digits l)
    <= Z.pos (Pos.of_uint_acc l acc)
    < (Z.pos acc + 1) * 10 ^ Z.of_nat (Decimal.nb_digits l).
Proof.
  induction l as [|l IH|l IH|l IH|l IH|l IH|l IH|l IH|l IH|l IH|l IH];
    intros acc; cbn [Pos.of_uint_acc Decimal.nb_digits];
    [simpl; lia | ..];
    rewrite Nat2Z.inj_succ, Z.pow_succ_r by lia;
    match goal with
    | |- context [Pos.of_uint_acc l ?a] => specialize (IH a)
    end;
    pose proof (Z.pow_pos_nonneg 10 (Z.of_nat (Decimal.nb_digits l))
                  ltac:(lia) ltac:(lia));
    nia.
Qed.

Lemma to_uint_head (p : positive) :
  exists (l : Decimal.uint) (i : positive),
    (i <= 9)%positive /\
    Z.pos p = Z.pos (Pos.of_uint_acc l i) /\
    Decimal.nb_digits (Pos.to_uint p) = S (Decimal.nb_digits l).
Proof.
  pose proof (DecimalPos.Unsigned.of_to p) as Hof.
  pose proof (DecimalPos.Unsigned.to_uint_nonzero p) as Hnz.
  destruct (Pos.to_uint p) as [|l|l|l|l|l|l|l|l|l|l] eqn:E; simpl in Hof;
    try discriminate.
  - exfalso.
    pose proof (DecimalPos.Unsigned.to_of l) as Hto. rewrite Hof in Hto.
    simpl in Hto. rewrite E in Hto.
    pose proof (DecimalFacts.nb_digits_nzhead l) as Hnb.
    unfold Decimal.unorm in Hto.
    destruct (Decimal.nzhead l) eqn:En; inversion Hto; subst;
      try (apply Hnz; reflexivity); simpl in Hnb; lia.
  - exists l, 1%positive. inversion Hof. repeat split; lia.
  - exists l, 2%positive. inversion Hof. repeat split; lia.
  - exists l, 3%positive. inversion Hof. repeat split; lia.
  - exists l, 4%positive. inversion Hof. repeat split; lia.
  - exists l, 5%positive. inversion Hof. repeat split; lia.
  - exists l, 6%positive. inversion Hof. repeat split; lia.
  - exists l, 7%positive. inversion Hof. repeat split; lia.
  - exists l, 8%positive. inversion Hof. repeat split; lia.
  - exists l, 9%positive. inversion Hof. repeat split; lia.
Qed.

Lemma len_str_bounds (n : Z) :
  0 < n -> 10 ^ (len_str n - 1) <= n < 10 ^ len_str n.
Proof.
  intros Hn. destruct n as [|p|p]; try lia.
  unfold len_str, str. simpl Z.to_int. cbn [NilZero.string_of_int].
  unfold NilZero.string_of_uint.
  pose proof (DecimalPos.Unsigned.to_uint_nonnil p) as Hnn.
  destruct (to_uint_head p) as (l & i & Hi & Hv & Hnb).
  assert (E : String.length
                match Pos.to_uint p with
                | Decimal.Nil => "0"%string
                | _ => NilEmpty.string_of_uint (Pos.to_uint p)
                end = S (Decimal.nb_digits l)).
  { rewrite <- Hnb, <- string_of_uint_length.
    destruct (Pos.to_uint p); [contradiction | reflexivity..]. }
  rewrite E. pose proof (of_uint_acc_bounds l i) as B. rewrite <- Hv in B.
  replace (Z.of_nat (S (Decimal.nb_digits l)) - 1)
    with (Z.of_nat (Decimal.nb_digits l)) by lia.
  rewrite Nat2Z.inj_succ, Z.pow_succ_r by lia.
  pose proof (Z.pow_pos_nonneg 10 (Z.of_nat (Decimal.nb_digits l))
                ltac:(lia) ltac:(lia)).
  nia.
Qed.



(** The products the range enumerator returns stay below the next power
    of ten above [min_val], whatever [max_val] is: with [k] the number of
    digits of [min_val >= 1], every returned product lies in
    [(min_val, min (max_val, 10 ** k - 1)]]. *)
Theorem find_semiprimes_digit_band :
  forall (root : Z -> res Z) (fuel : nat) (min_val max_val count : Z)
         (results : list triple),
    1 <= min_val ->
    find_semiprimes_in_range root fuel min_val max_val count = Ret results ->
    forall p q product, In (p, q, product) results ->
      10 ^ (len_str min_val - 1) <= min_val /\
      min_val < product <= max_val /\
      product < 10 ^ len_str min_val.
Proof.
  intros root fuel min_val max_val count results Hmin H p q product Hin.
  split; [apply len_str_bounds; lia|].
  destruct (find_semiprimes_factors _ _ _ _ _ _ H) as (r0 & _ & Hf).
  rewrite Forall_forall in Hf. specialize (Hf _ Hin).
  destruct Hf as (_ & _ & _ & _ & _ & Hlt & _).
  assert (Hsafe : in_range_triple min_val max_val (p, q, product)).
  { destruct (Z_le_gt_dec 0 count) as [Hc|Hc].
    - destruct (find_semiprimes_safe _ _ _ _ _ _ Hc H) as [Hall _].
      rewrite Forall_forall in Hall. exact (Hall _ Hin).
    - exfalso. unfold find_semiprimes_in_range in H.
      apply bind_ret in H. destruct H as (r & _ & H).
      apply bind_ret in H. destruct H as (p0 & _ & H).
      apply bind_ret in H. destruct H as (st & Hst & H).
      inversion H; subst results.
      destruct fuel as [|fuel]; [discriminate|]. simpl in Hst.
      assert (Hcond : outer_cond max_val count (p0, []) = false).
      { unfold outer_cond. simpl. apply andb_false_iff. left.
        apply Z.ltb_ge. unfold len. simpl. lia. }
      unfold test in Hst. rewrite Hcond in Hst. simpl in Hst.
      inversion Hst; subst st. exact Hin. }
  destruct Hsafe as (_ & Hr & Hd).
  split; [lia|]. rewrite <- Hd. apply len_str_bounds. lia.
Qed.

Lemma find_semiprimes_digit_band_witness :
  10 ^ (len_str 10 - 1) <= 10 /\ 10 < 35 <= 5000 /\ 35 < 10 ^ len_str 10.
Proof.
  apply (find_semiprimes_digit_band cautious_root 50 10 5000 3
           [(5, 3, 15); (5, 5, 25); (5, 7, 35)] ltac:(lia) eq_refl 5 7 35).
  simpl. tauto.
Defined.
